(** * Local-Translator: the word-resolution pipeline of [utils.py], [config.py]
    and [main.py], embedded in Rocq.

    Python [str] values are modelled by [string]: a character is a code point
    in the range 0..255 (the Latin-1 block of Unicode), and the character
    classes below are Python's on that block ([str.isspace], [str.lower], and
    the [re] classes [\w] and [\s] for [str] patterns).  The block is closed
    under [str.lower]. *)

From Stdlib Require Import Ascii NArith QArith Lia.
From stdpp Require Import gmap strings list fin_maps sorting.

Local Open Scope stdpp_scope.

(** ** Characters *)

Definition code (c : ascii) : N := N_of_ascii c.

Definition in_range (lo hi : N) (c : ascii) : bool :=
  ((lo <=? code c) && (code c <=? hi))%N.

(** [str.isspace] and the regex class [\s]: TAB..CR, FS..US, space, NEL and
    the no-break space. *)
Definition isspace (c : ascii) : bool :=
  in_range 9 13 c || in_range 28 32 c || (code c =? 133)%N || (code c =? 160)%N.

(** [str.lower] on one character: A-Z and the upper-case letters of Latin-1
    (all of 192..222 but the multiplication sign 215) move up by 32. *)
Definition lower_char (c : ascii) : ascii :=
  if in_range 65 90 c || in_range 192 214 c || in_range 216 222 c
  then ascii_of_N (code c + 32)
  else c.

Definition isdigit_ascii (c : ascii) : bool := in_range 48 57 c.

Definition isalpha_ascii (c : ascii) : bool :=
  in_range 65 90 c || in_range 97 122 c.

(** The regex class [\w] for [str] patterns: alphanumeric in the Unicode
    sense, or the underscore. *)
Definition isword (c : ascii) : bool :=
  isdigit_ascii c || isalpha_ascii c || (code c =? 95)%N
  || (code c =? 170)%N || (code c =? 178)%N || (code c =? 179)%N
  || (code c =? 181)%N || (code c =? 185)%N || (code c =? 186)%N
  || in_range 188 190 c
  || in_range 192 214 c || in_range 216 246 c || in_range 248 255 c.

Definition is_apostrophe (c : ascii) : bool := (code c =? 39)%N.
Definition is_hyphen (c : ascii) : bool := (code c =? 45)%N.

(** ** The [str] methods the program uses *)

Fixpoint str_all (p : ascii → bool) (s : string) : bool :=
  match s with
  | EmptyString => true
  | String c s' => p c && str_all p s'
  end.

Fixpoint str_filter (p : ascii → bool) (s : string) : string :=
  match s with
  | EmptyString => EmptyString
  | String c s' => if p c then String c (str_filter p s') else str_filter p s'
  end.

Fixpoint str_in (a : ascii) (s : string) : Prop :=
  match s with
  | EmptyString => False
  | String c s' => a = c ∨ str_in a s'
  end.

Definition is_empty (s : string) : bool :=
  match s with EmptyString => true | String _ _ => false end.

Fixpoint lower (s : string) : string :=
  match s with
  | EmptyString => EmptyString
  | String c s' => String (lower_char c) (lower s')
  end.

Fixpoint lstrip (s : string) : string :=
  match s with
  | EmptyString => EmptyString
  | String c s' => if isspace c then lstrip s' else s
  end.

Fixpoint rstrip (s : string) : string :=
  match s with
  | EmptyString => EmptyString
  | String c s' =>
      let r := rstrip s' in
      if isspace c && is_empty r then EmptyString else String c r
  end.

(** [s.strip()] *)
Definition strip (s : string) : string := rstrip (lstrip s).

Definition starts_token (s : string) : bool :=
  match s with
  | EmptyString => false
  | String c _ => negb (isspace c)
  end.

(** [s.split()]: the maximal runs of non-whitespace characters, in order.  A
    non-whitespace character either opens a token or extends the token that
    starts right after it. *)
Fixpoint split (s : string) : list string :=
  match s with
  | EmptyString => []
  | String c s' =>
      if isspace c then split s'
      else if starts_token s' then
        match split s' with
        | w :: ws => String c w :: ws
        | [] => [String c EmptyString]
        end
      else String c EmptyString :: split s'
  end.

(** [sep.join(l)] *)
Fixpoint join (sep : string) (l : list string) : string :=
  match l with
  | [] => EmptyString
  | [w] => w
  | w :: ws => w +:+ sep +:+ join sep ws
  end.

Fixpoint prefix_of (p s : string) : bool :=
  match p, s with
  | EmptyString, _ => true
  | String a p', String b s' => bool_decide (a = b) && prefix_of p' s'
  | String _ _, EmptyString => false
  end.

(** [sub in s] *)
Fixpoint contains (sub s : string) : bool :=
  prefix_of sub s ||
  match s with
  | EmptyString => false
  | String _ s' => contains sub s'
  end.

Definition starts_space (s : string) : bool :=
  match s with
  | EmptyString => false
  | String c _ => isspace c
  end.

(** [re.sub(r'\s+', ' ', s)]: of a run of whitespace only the last character
    stays, as one space. *)
Fixpoint collapse_ws (s : string) : string :=
  match s with
  | EmptyString => EmptyString
  | String c s' =>
      if isspace c
      then (if starts_space s' then collapse_ws s' else String " " (collapse_ws s'))
      else String c (collapse_ws s')
  end.

(** ** The lookup table

    A [DataFrame] as [WordMatcher] reads it: the rows in load order, each with
    its ['english'] entry and one cell per further column.  A cell is [None]
    for a missing value (NaN) and [Some s] for a string; the columns are
    string columns, as [CSVLoader._clean_dataframe] leaves them. *)

Definition cell : Type := option string.

Record Row : Type := mkRow { english : string; cells : list cell }.

Record DataFrame : Type := mkFrame { columns : list string; rows : list Row }.

Global Instance Row_eq_dec : EqDecision Row.
Proof. solve_decision. Defined.

(** [df.empty] *)
Definition empty_frame (df : DataFrame) : bool :=
  match rows df with [] => true | _ :: _ => false end.

(** [name in df.columns] *)
Definition has_column (df : DataFrame) (name : string) : bool :=
  bool_decide (name = "english") || bool_decide (name ∈ columns df).

Fixpoint column_index (name : string) (cols : list string) : option nat :=
  match cols with
  | [] => None
  | c :: cols' => if bool_decide (name = c) then Some 0 else S <$> column_index name cols'
  end.

(** [row[name]]; a column the frame does not have reads as missing. *)
Definition cell_at (cols : list string) (name : string) (r : Row) : cell :=
  if bool_decide (name = "english") then Some (english r)
  else match column_index name cols with
       | Some i => match cells r !! i with Some c => c | None => None end
       | None => None
       end.

(** [df[mask]] *)
Definition select (p : Row → bool) (df : DataFrame) : DataFrame :=
  mkFrame (columns df) (List.filter p (rows df)).

(** [DataFrame.drop_duplicates()]: rows are compared by value and the first
    occurrence stays. *)
Fixpoint drop_duplicates (l : list Row) : list Row :=
  match l with
  | [] => []
  | r :: l' => r :: List.filter (λ r', bool_decide (r' ≠ r)) (drop_duplicates l')
  end.

(** A stable sort by the length of the ['english'] entry. *)
Fixpoint insert_by_len (r : Row) (l : list Row) : list Row :=
  match l with
  | [] => [r]
  | r' :: l' =>
      if (String.length (english r) <=? String.length (english r'))%nat
      then r :: l
      else r' :: insert_by_len r l'
  end.

Definition stable_sort_by_len (l : list Row) : list Row :=
  foldr insert_by_len [] l.

(** The truth value Python gives an [Optional[str]]: [None] and the empty
    string are false. *)
Definition truthy (o : option string) : bool :=
  match o with
  | Some s => negb (is_empty s)
  | None => false
  end.

Definition Qlt_bool (x y : Q) : bool := negb (Qle_bool y x).

(** ** Exceptions that leave the lookup

    What pandas raises inside [_get_best_translation] and the [KeyError] of a
    key that is not there.  The text of such an exception is the library's;
    it is not spelled out. *)

Inductive PyException : Type :=
  | AttributeError
  | KeyError (key : string).

Inductive Result (A : Type) : Type :=
  | Value (a : A)
  | Throws (e : PyException).

Arguments Value {A} a.
Arguments Throws {A} e.

(** ** [utils.py], class [WordMatcher] *)

Module WordMatcher.

Definition _clean_word (word : string) : string :=
  let cleaned := join " " (split (lower (strip word))) in
  str_filter (λ c, isword c || isspace c || is_apostrophe c || is_hyphen c) cleaned.

(** The mask [matches[t].notna() & (matches[t].str.strip() != '')]. *)
Definition valid_cell (cols : list string) (target_language : string) (r : Row) : bool :=
  match cell_at cols target_language r with
  | Some s => negb (is_empty (strip s))
  | None => false
  end.

(** The callers pass frames that have the column [target_language]:
    [search_in_csv] has checked it. *)
Definition _get_best_translation (matches : DataFrame) (target_language : string)
  : option string :=
  if empty_frame matches then None
  else
    let valid_matches := select (valid_cell (columns matches) target_language) matches in
    match rows valid_matches with
    | r :: _ =>
        match cell_at (columns matches) target_language r with
        | Some s =>
            let translation := strip s in
            if is_empty translation then None else Some translation
        | None => None
        end
    | [] => None
    end.

Definition _exact_match (word target_language : string) (df : DataFrame) : option string :=
  let matches := select (λ r, bool_decide (strip (lower (english r)) = word)) df in
  _get_best_translation matches target_language.

Definition _case_insensitive_match (word target_language : string) (df : DataFrame)
  : option string :=
  let matches :=
    select (λ r, bool_decide (collapse_ws (strip (lower (english r))) = word)) df in
  _get_best_translation matches target_language.

(** The Jaccard similarity is a quotient of two small naturals; the float
    division of the source is correctly rounded, so comparing the quotients
    as rationals decides [>] and [>= 0.5] as the floats do. *)
Definition similarity_of (word_parts entry_parts : gset string) : Q :=
  Z.of_nat (size (word_parts ∩ entry_parts))
    # Pos.of_nat (size (word_parts ∪ entry_parts)).

(** [_get_best_translation(pd.DataFrame([row]), target_language)], the call
    in the loop of [_fuzzy_match].  The frame built from the one row infers
    the type of each column anew: the column of a string cell is a string
    column and the selection goes as in [_get_best_translation]; the column
    of a missing cell is a float column, on which [.str] raises
    [AttributeError] ([&] evaluates both its operands); a label the row does
    not have raises [KeyError]. *)
Definition _get_best_translation_of_row (cols : list string) (row : Row)
    (target_language : string) : Result (option string) :=
  if negb (has_column (mkFrame cols [row]) target_language)
  then Throws (KeyError target_language)
  else
    match cell_at cols target_language row with
    | Some _ => Value (_get_best_translation (mkFrame cols [row]) target_language)
    | None => Throws AttributeError
    end.

(** One turn of the loop of [_fuzzy_match] over [df.iterrows()]; the state
    is [(best_match, best_score)]. *)
Definition fuzzy_step (word_parts : gset string) (target_language : string)
    (cols : list string) (st : option string * Q) (row : Row)
  : Result (option string * Q) :=
  let english_entry := strip (lower (english row)) in
  if is_empty english_entry then Value st
  else
    let entry_parts : gset string := list_to_set (split english_entry) in
    if bool_decide (word_parts ∪ entry_parts ≠ ∅) then
      let similarity := similarity_of word_parts entry_parts in
      if Qlt_bool (snd st) similarity && Qle_bool (1 # 2) similarity then
        match _get_best_translation_of_row cols row target_language with
        | Value translation =>
            Value (if truthy translation then (translation, similarity) else st)
        | Throws e => Throws e
        end
      else Value st
    else Value st.

(** The loop: an exception ends it. *)
Fixpoint fuzzy_loop (word_parts : gset string) (target_language : string)
    (cols : list string) (st : option string * Q) (todo : list Row)
  : Result (option string * Q) :=
  match todo with
  | [] => Value st
  | row :: todo' =>
      match fuzzy_step word_parts target_language cols st row with
      | Value st' => fuzzy_loop word_parts target_language cols st' todo'
      | Throws e => Throws e
      end
  end.

Definition _fuzzy_match (word target_language : string) (df : DataFrame)
  : Result (option string) :=
  let word_parts : gset string := list_to_set (split word) in
  match fuzzy_loop word_parts target_language (columns df) (None, 0%Q) (rows df) with
  | Value (best_match, _) => Value best_match
  | Throws e => Throws e
  end.

Section Sorted.

(** [DataFrame.sort_values('english', key=lambda x: x.str.len())] runs
    the default, unstable quicksort: the order it gives rows of equal
    length is not fixed, so the sort is a parameter here. *)
Variable sort_values : list Row → list Row.

Definition _partial_match (word target_language : string) (df : DataFrame)
  : option string :=
  let contains_matches := select (λ r, contains word (lower (english r))) df in
  let contained_matches :=
    select (λ r, let x := lower (english r) in
                 if is_empty x then false else contains word x) df in
  let all_matches :=
    mkFrame (columns df)
      (drop_duplicates (rows contains_matches ++ rows contained_matches)) in
  if negb (empty_frame all_matches) then
    let all_matches := mkFrame (columns df) (sort_values (rows all_matches)) in
    _get_best_translation all_matches target_language
  else None.

Definition search_in_csv (english_word target_language : string) (df : DataFrame)
  : Result (option string) :=
  if empty_frame df || negb (has_column df target_language) then Value None
  else
    let english_clean := _clean_word english_word in
    let exact_match := _exact_match english_clean target_language df in
    if truthy exact_match then Value exact_match
    else
      let case_match := _case_insensitive_match english_clean target_language df in
      if truthy case_match then Value case_match
      else
        let partial_match := _partial_match english_clean target_language df in
        if truthy partial_match then Value partial_match
        else
          match _fuzzy_match english_clean target_language df with
          | Value fuzzy_match =>
              if truthy fuzzy_match then Value fuzzy_match
              else Value None
          | Throws e => Throws e
          end.

End Sorted.

End WordMatcher.

(** ** [config.py], class [Config] *)

Module Config.

Definition GOOGLE_TRANSLATE_MAX_RETRIES : nat := 3.

Definition SUPPORTED_LANGUAGES : gmap string string :=
  list_to_map [("swahili", "Swahili"); ("haya", "Haya"); ("sukuma", "Sukuma")].

Definition GOOGLE_TRANSLATE_CODES : gmap string string :=
  list_to_map [("english", "en"); ("swahili", "sw")].

Definition FALLBACK_TRANSLATIONS : gmap string (gmap string string) :=
  list_to_map
    [ ("swahili", list_to_map
         [ ("hello", "hujambo"); ("goodbye", "kwaheri"); ("thank you", "asante");
           ("please", "tafadhali"); ("yes", "ndiyo"); ("no", "hapana");
           ("water", "maji"); ("food", "chakula"); ("house", "nyumba");
           ("family", "familia"); ("friend", "rafiki"); ("love", "upendo");
           ("peace", "amani"); ("school", "shule"); ("book", "kitabu");
           ("teacher", "mwalimu"); ("student", "mwanafunzi"); ("mother", "mama");
           ("father", "baba"); ("child", "mtoto"); ("good", "nzuri");
           ("bad", "mbaya"); ("big", "kubwa"); ("small", "ndogo") ]);
      ("haya", list_to_map
         [ ("hello", "oriire ota"); ("water", "amizi"); ("food", "ebyakula");
           ("house", "enju"); ("thank you", "waakera"); ("good", "kirungi");
           ("man", "mushaija"); ("woman", "mukazi"); ("child", "mwana");
           ("book", "ekitabu"); ("school", "umosomelo"); ("sleep", "okunyama");
           ("eat", "okulya"); ("walk", "iruka"); ("morning", "bwakya");
           ("one", "emo"); ("two", "ibili"); ("three", "ishatu");
           ("four", "ina"); ("five", "itanu") ]);
      ("sukuma", list_to_map
         [ ("hello", "mwangaluka"); ("world", "welelo"); ("food", "shilewa");
           ("water", "minze"); ("house", "numba"); ("school", "shule");
           ("friend", "nsumba"); ("man", "ngosha"); ("woman", "nkima");
           ("child", "mwana"); ("tomorrow", "ntondo"); ("home", "mukaya");
           ("yes", "geko"); ("salt", "munhu"); ("shop", "iduka");
           ("milk", "mabwhela"); ("talk", "goyomba"); ("one", "emo");
           ("buy", "gula"); ("sell", "guzu") ]) ].

Definition MESSAGES : gmap string string :=
  list_to_map
    [ ("empty_word", "Please enter a valid English word");
      ("invalid_language", "Target language must be 'swahili', 'haya', or 'sukuma'");
      ("csv_not_found", "Translation dictionary not found");
      ("network_error", "Network timeout - please check your internet connection");
      ("rate_limit", "Rate limit exceeded - please try again later");
      ("translation_failed", "Translation failed after multiple attempts");
      ("no_translation", "No translation found for this word");
      ("server_error", "Internal server error occurred") ].

Definition get_fallback_translation (word target_language : string) : option string :=
  let word_lower := strip (lower word) in
  match FALLBACK_TRANSLATIONS !! target_language with
  | Some d => d !! word_lower
  | None => None
  end.

(** [SUPPORTED_LANGUAGES.items()], in the order the dictionary is written. *)
Definition SUPPORTED_LANGUAGES_items : list (string * string) :=
  [("swahili", "Swahili"); ("haya", "Haya"); ("sukuma", "Sukuma")].

Definition CSV_FILES : list string :=
  ["english_to_haya_sukuma_nyakyusa 2.csv"; "english_to_haya_sukuma_nyakyusa.csv"].

Definition CSV_ENCODINGS : list string :=
  ["utf-8"; "windows-1252"; "latin-1"; "iso-8859-1"].

(** The file system is the oracle [path_exists], for [os.path.exists]. *)
Definition get_csv_file_path (path_exists : string → bool) : option string :=
  List.find path_exists CSV_FILES.

Definition get_all_csv_files (path_exists : string → bool) : list string :=
  List.filter path_exists CSV_FILES.

Definition is_supported_language (language : string) : bool :=
  bool_decide (is_Some (SUPPORTED_LANGUAGES !! lower language)).

End Config.

(** ** [utils.py], class [TextProcessor] *)

Module TextProcessor.

(** [re.match(r'^[a-zA-Z\s\'-]+$', s)]: a non-empty run of class
    characters from the start, after which [$] holds: at the end of the
    string or just before a newline that ends it. *)
Definition at_dollar (s : string) : bool :=
  match s with
  | EmptyString => true
  | String c EmptyString => (code c =? 10)%N
  | _ => false
  end.

Fixpoint match_run (p : ascii → bool) (consumed : bool) (s : string) : bool :=
  (consumed && at_dollar s) ||
  match s with
  | EmptyString => false
  | String c s' => p c && match_run p true s'
  end.

Definition valid_char (c : ascii) : bool :=
  isalpha_ascii c || isspace c || is_apostrophe c || is_hyphen c.

Definition validate_input (text : string) : bool * string :=
  if is_empty text || is_empty (strip text) then
    (false, Config.MESSAGES !!! "empty_word")
  else if (100 <? String.length (strip text))%nat then
    (false, "Word is too long (max 100 characters)")
  else if negb (match_run valid_char false (strip text)) then
    (false, "Word contains invalid characters")
  else (true, "").



Definition english_indicators : list string :=
  ["the"; "and"; "or"; "but"; "is"; "are"; "was"; "were"; "have"; "has"; "will"; "would"].

Definition detect_language (text : string) : string :=
  let text_lower := strip (lower text) in
  if existsb (λ indicator, bool_decide (indicator ∈ split text_lower)) english_indicators
  then "english"
  else "english".

End TextProcessor.

(** ** [utils.py], class [TranslationService]

    The remote translator is an oracle: [remote n text] is what the [n]-th
    call of [translator.translate] of the process does, counting from 0.  It
    either returns a result, whose text may be missing or empty, or raises an
    exception with a message.  The service state is the cache and the trace
    of what the service did; the length of a sleep is not modelled. *)

Inductive RemoteOutcome : Type :=
  | Returned (text : option string)
  | Raised (msg : string).

Inductive Event : Type :=
  | RetryDelay
  | RateLimitDelay
  | RemoteCall (text src dest : string).

Record Service : Type := mkService {
  translation_cache : gmap string string;
  trace : list Event
}.

(** What a Python call does: return a value or raise [Exception(msg)]. *)
Inductive Outcome (A : Type) : Type :=
  | Return (a : A)
  | Raise (msg : string).
Arguments Return {A} a.
Arguments Raise {A} msg.

Definition is_call (e : Event) : bool :=
  match e with RemoteCall _ _ _ => true | _ => false end.

Definition calls (tr : list Event) : nat := length (List.filter is_call tr).

Definition log (e : Event) (st : Service) : Service :=
  mkService (translation_cache st) (trace st ++ [e]).

(** What one turn of [for attempt in range(MAX_RETRIES)] ends in: it leaves
    the function, by [return] or [raise], or goes on to the next attempt. *)
Inductive Turn : Type :=
  | Leave (r : Outcome string)
  | Continue.

Module TranslationService.

Section Remote.

Variable remote : nat → string → RemoteOutcome.

Definition is_network_error (error_msg : string) : bool :=
  existsb (λ keyword, contains keyword error_msg)
    ["timeout"; "handshake"; "ssl"; "connection"].

Definition is_rate_limit (error_msg : string) : bool :=
  contains "rate limit" error_msg || contains "429" error_msg.

(** The [except Exception as e] clause. *)
Definition handler (attempt : nat) (e : string) (st : Service) : Turn * Service :=
  let error_msg := lower e in
  if is_network_error error_msg then
    if (attempt =? Config.GOOGLE_TRANSLATE_MAX_RETRIES - 1)%nat
    then (Leave (Raise (Config.MESSAGES !!! "network_error")), st)
    else (Continue, st)
  else if is_rate_limit error_msg then
    if (attempt =? Config.GOOGLE_TRANSLATE_MAX_RETRIES - 1)%nat
    then (Leave (Raise (Config.MESSAGES !!! "rate_limit")), st)
    else (Continue, log RateLimitDelay st)
  else (Leave (Raise ("Translation service error: " +:+ e)), st).

(** The body of the loop. *)
Definition attempt_body (attempt : nat) (english_word cache_key : string) (st : Service)
  : Turn * Service :=
  let st := if (0 <? attempt)%nat then log RetryDelay st else st in
  let result := remote (calls (trace st)) english_word in
  let st := log (RemoteCall english_word
                   (Config.GOOGLE_TRANSLATE_CODES !!! "english")
                   (Config.GOOGLE_TRANSLATE_CODES !!! "swahili")) st in
  match result with
  | Returned (Some text) =>
      if negb (is_empty text) then
        let translation := strip text in
        (Leave (Return translation),
         mkService (<[cache_key := translation]> (translation_cache st)) (trace st))
      else handler attempt "Empty translation result" st
  | Returned None => handler attempt "Empty translation result" st
  | Raised e => handler attempt e st
  end.

(** The loop over the attempts still to run, and the [raise] after it. *)
Fixpoint attempts (todo : list nat) (english_word cache_key : string) (st : Service)
  : Outcome string * Service :=
  match todo with
  | [] => (Raise (Config.MESSAGES !!! "translation_failed"), st)
  | attempt :: todo' =>
      match attempt_body attempt english_word cache_key st with
      | (Leave r, st') => (r, st')
      | (Continue, st') => attempts todo' english_word cache_key st'
      end
  end.

Definition cache_key_of (english_word : string) : string :=
  "en_to_sw_" +:+ lower english_word.

Definition translate_to_swahili (english_word : string) (st : Service)
  : Outcome string * Service :=
  let cache_key := cache_key_of english_word in
  match translation_cache st !! cache_key with
  | Some cached => (Return cached, st)
  | None =>
      attempts (seq 0 Config.GOOGLE_TRANSLATE_MAX_RETRIES) english_word cache_key st
  end.

End Remote.

End TranslationService.

(** ** [main.py], the handler [translate_word]

    The request has passed the pydantic model; the response leaves out the
    timestamp.  The request counters and the background logging task do not
    bear on the result and are left out. *)

Record TranslationRequest : Type := mkRequest {
  english_word : string;
  target_language : string
}.

Record TranslationResponse : Type := mkTranslationResponse {
  english_of : string;
  translation : string;
  target_language_of : string;
  language_name : string;
  method : string;
  success : bool;
  error : option string
}.

(** What the handler answers: a response, an [HTTPException] it raises
    itself, or the [HTTPException] of status 500 that its last [except]
    clause raises for an exception [e], with the detail
    ["Translation failed: "] followed by [str(e)]. *)
Inductive HandlerResult : Type :=
  | Responded (r : TranslationResponse)
  | HTTPException (status_code : nat) (detail : string)
  | TranslationFailed (e : PyException).

Module Main.

Section Handler.

Variable sort_values : list Row → list Row.
Variable remote : nat → string → RemoteOutcome.
Variable translation_df : DataFrame.

(** [TranslationResponse(..., language_name=Config.SUPPORTED_LANGUAGES[t], ...)]:
    an unknown language raises [KeyError], which the outer handler turns
    into a 500. *)
Definition respond (english_word target_language translation method : string)
    (success : bool) (error : option string) : HandlerResult :=
  match Config.SUPPORTED_LANGUAGES !! target_language with
  | Some name =>
      Responded (mkTranslationResponse english_word translation target_language
                   name method success error)
  | None => TranslationFailed (KeyError target_language)
  end.

Definition translate_word (request : TranslationRequest) (st : Service)
  : HandlerResult * Service :=
  let (is_valid, error_message) := TextProcessor.validate_input (english_word request) in
  if negb is_valid then (HTTPException 400 error_message, st)
  else
    let english_word := strip (english_word request) in
    let target_language := lower (target_language request) in
    match WordMatcher.search_in_csv sort_values english_word target_language translation_df with
    | Throws e => (TranslationFailed e, st)
    | Value csv_translation =>
        if truthy csv_translation then
          (respond english_word target_language (default "" csv_translation)
             "csv_lookup" true None, st)
        else
          let fallback_translation :=
            Config.get_fallback_translation english_word target_language in
          if truthy fallback_translation then
            (respond english_word target_language (default "" fallback_translation)
               "fallback_dictionary" true None, st)
          else if bool_decide (target_language = "swahili") then
            match TranslationService.translate_to_swahili remote english_word st with
            | (Return swahili_translation, st') =>
                (respond english_word target_language swahili_translation
                   "google_translate" true None, st')
            | (Raise e, st') =>
                (respond english_word target_language "" "failed" false (Some e), st')
            end
          else
            (respond english_word target_language "" "not_found" false
               (Some ("No " +:+ target_language +:+ " translation found for '"
                      +:+ english_word +:+ "'")), st)
    end.

End Handler.

Record LanguageInfo : Type := mkLanguageInfo {
  info_code : string;
  info_name : string;
  info_available : bool;
  info_entries_count : nat
}.

(** [len(df[df[code].notna() & (df[code] != '')])], or 0 for an empty frame
    or a frame without the column. *)
Definition entries_count (translation_df : DataFrame) (code : string) : nat :=
  if negb (empty_frame translation_df) && has_column translation_df code then
    length (List.filter
              (λ r, match cell_at (columns translation_df) code r with
                    | Some s => negb (is_empty s)
                    | None => false
                    end)
              (rows translation_df))
  else 0.

Definition get_available_languages (translation_df : DataFrame) : list LanguageInfo :=
  (λ item, mkLanguageInfo (fst item) (snd item) true (entries_count translation_df (fst item)))
    <$> Config.SUPPORTED_LANGUAGES_items.

Record Health : Type := mkHealth {
  health_status : string;
  health_message : string;
  csv_loaded : bool;
  csv_entries : nat
}.

Definition health_check (translation_df : DataFrame) : Health :=
  {| health_status := "healthy";
     health_message := "English to Local Languages Translator API is running";
     csv_loaded := negb (empty_frame translation_df);
     csv_entries := if negb (empty_frame translation_df)
                    then length (rows translation_df) else 0 |}.

End Main.

(** ** [utils.py], class [CSVLoader]: the cleaning of a frame just read

    A frame as [pd.read_csv] delivers it: the column labels as written in the
    file and the rows, a row holding one cell per column (a column the row
    is too short for reads as missing).  Cells are strings or missing. *)

Record RawFrame : Type := mkRawFrame {
  raw_columns : list string;
  raw_rows : list (list cell)
}.

Module CSVLoader.

Definition required_columns : list string :=
  "english" :: (fst <$> Config.SUPPORTED_LANGUAGES_items).

(** [fillna('').astype(str).str.strip()], then
    [' '.join(x.split()) if x else '']. *)
Definition clean_cell (c : cell) : cell :=
  let x := strip (default "" c) in
  Some (if is_empty x then "" else join " " (split x)).

Definition clean_value (name : string) (c : cell) : cell :=
  if bool_decide (name ∈ required_columns) then clean_cell c else c.

(** The cleaned row, as the list of its (label, cell) pairs in column order. *)
Definition clean_row (names : list string) (row : list cell) : list (string * cell) :=
  imap (λ i name, (name, clean_value name (default None (row !! i)))) names.

Definition is_english (item : string * cell) : bool :=
  bool_decide (fst item = "english").

Definition to_row (items : list (string * cell)) : Row :=
  mkRow (default "" (default None (snd <$> List.find is_english items)))
        (snd <$> List.filter (λ item, negb (is_english item)) items).

Definition count_label (name : string) (names : list string) : nat :=
  length (List.filter (λ n, bool_decide (n = name)) names).

(** [None] stands for the exception the function raises: [KeyError] when
    no label reads ['english'], [AttributeError] when two columns carry the
    same required label (then [df[col]] is a frame and has no [.str]). *)
Definition _clean_dataframe (df : RawFrame) : option DataFrame :=
  let names := (λ c, strip (lower c)) <$> raw_columns df in
  if existsb (λ name, (1 <? count_label name names)%nat) required_columns then None
  else if negb (bool_decide ("english" ∈ names)) then None
  else
    let cleaned := to_row ∘ clean_row names <$> raw_rows df in
    Some (mkFrame (List.filter (λ n, negb (bool_decide (n = "english"))) names)
            (List.filter (λ r, (0 <? String.length (english r))%nat) cleaned)).

(** What [pd.read_csv(csv_file, encoding=encoding)] does: it delivers a
    frame or raises ([UnicodeDecodeError] or another exception; the loader
    goes on to the next encoding after either). *)
Inductive ReadResult : Type :=
  | ReadOk (df : RawFrame)
  | ReadFails.

(** The loop over [Config.CSV_ENCODINGS]: the frame of the first encoding
    that reads, if any. *)
Fixpoint read_with (read_csv : string → string → ReadResult) (csv_file : string)
    (encodings : list string) : option RawFrame :=
  match encodings with
  | [] => None
  | encoding :: encodings' =>
      match read_csv csv_file encoding with
      | ReadOk df => Some df
      | ReadFails => read_with read_csv csv_file encodings'
      end
  end.

(** [None] stands for an exception: [FileNotFoundError] when no file
    exists, [Exception] when no encoding reads, or what [_clean_dataframe]
    raises.  The messages are not modelled. *)
Definition load_translation_data (path_exists : string → bool)
    (read_csv : string → string → ReadResult) : option DataFrame :=
  match Config.get_csv_file_path path_exists with
  | None => None
  | Some csv_file =>
      match read_with read_csv csv_file Config.CSV_ENCODINGS with
      | None => None
      | Some df => _clean_dataframe df
      end
  end.

End CSVLoader.

(** ** [run.py] *)

Module Run.

Definition possible_files : list string :=
  ["english_to_haya_sukuma_nyakyusa 2.csv"; "english_to_haya_sukuma_nyakyusa.csv"].

(** [check_csv_files], without what it prints. *)
Definition check_csv_files (path_exists : string → bool) : bool :=
  let found_files := List.filter path_exists possible_files in
  match found_files with
  | [] => false
  | _ :: _ => true
  end.

End Run.

(** The table [main.py] starts with: what the loader delivers, or the empty
    frame [pd.DataFrame()] when the loader raises. *)
Definition translation_df_at_startup (path_exists : string → bool)
    (read_csv : string → string → CSVLoader.ReadResult) : DataFrame :=
  match CSVLoader.load_translation_data path_exists read_csv with
  | Some df => df
  | None => mkFrame [] []
  end.

(** ** Notions the properties are stated with *)

(** The characters the filter of [_clean_word] keeps. *)
Definition kept_char (c : ascii) : bool :=
  isword c || isspace c || is_apostrophe c || is_hyphen c.

Definition nonspace (c : ascii) : bool := negb (isspace c).

(** A character that [str.lower] leaves as it is. *)
Definition lower_fixed (c : ascii) : bool := bool_decide (lower_char c = c).

(** An entry with its whitespace normalized: tokens separated by single
    spaces, nothing around them. *)
Definition ws_normal (e : string) : Prop := join " " (split e) = e.

(** What [sort_values('english', key=lambda x: x.str.len())] guarantees
    whatever the algorithm: the same rows, in ascending order of the length
    of their entry. *)
Definition len_le (a b : Row) : Prop :=
  String.length (english a) ≤ String.length (english b).

Definition sorts_by_len (sort_values : list Row → list Row) : Prop :=
  ∀ l, sort_values l ≡ₚ l ∧ StronglySorted len_le (sort_values l).

(** The messages [translate_to_swahili] raises for a failure it has
    classified. *)
Definition classified_failure (m : string) : Prop :=
  m = "Network timeout - please check your internet connection"
  ∨ m = "Rate limit exceeded - please try again later"
  ∨ ∃ e, m = "Translation service error: " +:+ e.

(** An error message after which the loop goes on, unless the attempt was
    the last one. *)
Definition retriable (e : string) : bool :=
  TranslationService.is_network_error (lower e)
  || TranslationService.is_rate_limit (lower e).

(** A token of [split]: non-empty and free of whitespace. *)
Definition token (w : string) : Prop :=
  is_empty w = false ∧ str_all nonspace w = true.

(** What every tier hands back: nothing, or a trimmed, non-empty string. *)
Definition clean_result (o : option string) : Prop :=
  ∀ t, o = Some t → t ≠ "" ∧ strip t = t.

(** The token set of a row, as [_fuzzy_match] builds it. *)
Definition entry_parts (r : Row) : gset string :=
  list_to_set (split (strip (lower (english r)))).

(** The Jaccard similarity of two token sets: the size of their
    intersection over the size of their union, and 0 when the union is
    empty. *)
Definition jaccard (a b : gset string) : Q :=
  if bool_decide (a ∪ b = ∅) then 0%Q
  else Z.of_nat (size (a ∩ b)) # Pos.of_nat (size (a ∪ b)).

Definition score (word_parts : gset string) (r : Row) : Q :=
  jaccard word_parts (entry_parts r).

(** A row with a translation for the language: the cell is there and is
    not blank. *)
Definition has_translation (cols : list string) (lang : string) (r : Row) : Prop :=
  ∃ s, cell_at cols lang r = Some s ∧ strip s ≠ "".

(** A row the fuzzy tier may pick: it reaches the threshold and has a
    non-blank translation. *)
Definition eligible (word_parts : gset string) (cols : list string) (lang : string)
    (r : Row) : Prop :=
  (1 # 2 <= score word_parts r)%Q ∧ has_translation cols lang r.

(** The loop invariant of [_fuzzy_match]: after the rows [seen], the state
    holds the first row of the highest score among the eligible ones. *)
Definition best_so_far (wp : gset string) (cols : list string) (lang : string)
    (seen : list Row) (st : option string * Q) : Prop :=
  match fst st with
  | None => snd st = 0%Q ∧ Forall (λ r, ¬ eligible wp cols lang r) seen
  | Some t =>
      ∃ p1 r p2 s,
        seen = p1 ++ r :: p2
        ∧ cell_at cols lang r = Some s ∧ strip s ≠ "" ∧ t = strip s
        ∧ snd st = score wp r ∧ (1 # 2 <= score wp r)%Q
        ∧ Forall (λ r', eligible wp cols lang r' → (score wp r' < score wp r)%Q) p1
        ∧ Forall (λ r', eligible wp cols lang r' → (score wp r' <= score wp r)%Q) p2
  end.

(** What the selection of the fuzzy tier amounts to: the translation of the
    first row, in load order, of the highest score among the eligible rows,
    or nothing when no row is eligible. *)
Definition best_eligible (wp : gset string) (df : DataFrame) (lang : string)
    (o : option string) : Prop :=
  match o with
  | Some t =>
      ∃ pre r post s,
        rows df = pre ++ r :: post
        ∧ cell_at (columns df) lang r = Some s ∧ strip s ≠ "" ∧ t = strip s
        ∧ (1 # 2 <= score wp r)%Q
        ∧ Forall (λ r', eligible wp (columns df) lang r'
                        → (score wp r' < score wp r)%Q) pre
        ∧ Forall (λ r', eligible wp (columns df) lang r'
                        → (score wp r' <= score wp r)%Q) post
  | None => Forall (λ r, ¬ eligible wp (columns df) lang r) (rows df)
  end.


(** A token made wholly of characters that the filter of [_clean_word]
    removes. *)
Definition wholly_removed (t : string) : bool :=
  str_all (λ c, negb (kept_char c)) t.

(** ** Sample data *)

Definition df_demo : DataFrame :=
  mkFrame ["swahili"; "haya"]
    [ mkRow "book" [Some "kitabu"; None];
      mkRow "notebook" [Some "daftari"; Some ""];
      mkRow "good morning" [Some " habari za asubuhi "; None] ].

Definition st0 : Service := mkService ∅ [].

Definition df_cats : DataFrame :=
  mkFrame ["swahili"]
    [ mkRow "cats" [Some "paka-ish"];
      mkRow "Cat" [Some " "];
      mkRow " cat" [Some " paka "];
      mkRow "cat" [Some "paka wa pili"] ].

Definition df_book : DataFrame := mkFrame ["swahili"] [mkRow "book" [Some "kitabu"]].

Definition always_returns (text : string) : nat → string → RemoteOutcome :=
  λ _ _, Returned (Some text).

Definition fails_once : nat → string → RemoteOutcome :=
  λ n _, if (n =? 0)%nat then Raised "timeout" else Returned (Some "rafiki").

Definition always_raises (msg : string) : nat → string → RemoteOutcome :=
  λ _ _, Raised msg.

Definition raw_demo : RawFrame :=
  mkRawFrame [" English"; "Swahili "; "Nyakyusa"; "HAYA"]
    [ [Some "  Good   Morning "; Some " habari  za asubuhi"; None; None];
      [Some "   "; Some "x"; Some " y "; Some "z"];
      [None; Some "x"];
      [Some "Book"; None; Some " i  kitabu "] ].

(** * Properties *)

Local Arguments String.append : simpl nomatch.

(** ** Characters *)

Ltac by_chars c :=
  destruct c as [[] [] [] [] [] [] [] []]; vm_compute; try done; auto.

Lemma lower_char_idem c : lower_char (lower_char c) = lower_char c.
Proof. by_chars c. Qed.

Lemma isspace_lower_char c : isspace (lower_char c) = isspace c.
Proof. by_chars c. Qed.

Lemma kept_lower_char c : kept_char c = true → kept_char (lower_char c) = true.
Proof. by_chars c. Qed.

Lemma valid_char_kept c :
  TextProcessor.valid_char c = true → kept_char c = true.
Proof. by_chars c. Qed.

Lemma isdigit_facts c :
  isdigit_ascii c = true →
  lower_char c = c ∧ isspace c = false ∧ isword c = true
  ∧ TextProcessor.valid_char c = false.
Proof. by_chars c. Qed.

(** ** Strings *)

Lemma is_empty_true s : is_empty s = true ↔ s = "".
Proof. destruct s; simpl; split; done. Qed.

Lemma is_empty_false s : is_empty s = false ↔ s ≠ "".
Proof. destruct s; simpl; split; done. Qed.

Lemma str_in_app a s t : str_in a (s +:+ t) ↔ str_in a s ∨ str_in a t.
Proof. induction s as [|c s IH]; simpl; [tauto|]. rewrite IH. tauto. Qed.

Lemma str_all_app p s t : str_all p (s +:+ t) = str_all p s && str_all p t.
Proof. induction s as [|c s IH]; simpl; [done|]. by rewrite IH, andb_assoc. Qed.

Lemma str_all_in p s a : str_all p s = true → str_in a s → p a = true.
Proof.
  induction s as [|c s IH]; simpl; [done|].
  intros [Hc Hs]%andb_true_iff [->|Hin]; auto.
Qed.

Lemma str_filter_all p s : str_all p s = true → str_filter p s = s.
Proof.
  induction s as [|c s IH]; simpl; [done|].
  intros [Hc Hs]%andb_true_iff. rewrite Hc. by rewrite IH.
Qed.

Lemma str_in_filter p s a : str_in a s → p a = true → str_in a (str_filter p s).
Proof.
  induction s as [|c s IH]; simpl; [done|].
  intros [->|Hin] Hp.
  - rewrite Hp. by left.
  - destruct (p c); simpl; auto.
Qed.

Lemma lower_idem s : lower (lower s) = lower s.
Proof. induction s as [|c s IH]; simpl; [done|]. by rewrite lower_char_idem, IH. Qed.

Lemma str_in_lower a s : str_in a s → str_in (lower_char a) (lower s).
Proof. induction s as [|c s IH]; simpl; [done|]. intros [->|Hin]; auto. Qed.

Lemma str_all_lower p s :
  (∀ c, p c = true → p (lower_char c) = true) →
  str_all p s = true → str_all p (lower s) = true.
Proof.
  intros Hp. induction s as [|c s IH]; simpl; [done|].
  intros [Hc Hs]%andb_true_iff. rewrite Hp by done. auto.
Qed.

(** *** [strip] *)

Lemma lstrip_head s : lstrip s = "" ∨ starts_token (lstrip s) = true.
Proof.
  induction s as [|c s IH]; simpl; [by left|].
  destruct (isspace c) eqn:E; [done|]. right. simpl. by rewrite E.
Qed.

Lemma rstrip_idem s : rstrip (rstrip s) = rstrip s.
Proof.
  induction s as [|c s IH]; simpl; [done|].
  destruct (isspace c && is_empty (rstrip s)) eqn:E; simpl; [done|].
  by rewrite IH, E.
Qed.

Lemma rstrip_head s : starts_token s = true → starts_token (rstrip s) = true.
Proof.
  destruct s as [|c s]; simpl; [done|].
  intros Hc. destruct (isspace c) eqn:E; [done|]. simpl. by rewrite E.
Qed.

Lemma lstrip_token s : starts_token s = true → lstrip s = s.
Proof. destruct s as [|c s]; simpl; [done|]. by destruct (isspace c). Qed.

Lemma strip_idem s : strip (strip s) = strip s.
Proof.
  unfold strip. destruct (lstrip_head s) as [->|H]; [done|].
  rewrite (lstrip_token (rstrip _)) by by apply rstrip_head.
  apply rstrip_idem.
Qed.

Lemma str_in_lstrip a s : str_in a s → isspace a = false → str_in a (lstrip s).
Proof.
  induction s as [|c s IH]; simpl; [done|].
  intros [->|Hin] Ha.
  - rewrite Ha. by left.
  - destruct (isspace c); simpl; auto.
Qed.

Lemma str_in_rstrip a s : str_in a s → isspace a = false → str_in a (rstrip s).
Proof.
  induction s as [|c s IH]; simpl; [done|].
  intros [->|Hin] Ha.
  - rewrite Ha. by left.
  - specialize (IH Hin Ha). destruct (rstrip s) eqn:E; [done|].
    rewrite andb_false_r. simpl. right. done.
Qed.

Lemma str_in_strip a s : str_in a s → isspace a = false → str_in a (strip s).
Proof. intros Hin Ha. apply str_in_rstrip; [|done]. by apply str_in_lstrip. Qed.

Lemma str_all_lstrip p s : str_all p s = true → str_all p (lstrip s) = true.
Proof.
  induction s as [|c s IH]; simpl; [done|].
  intros [Hc Hs]%andb_true_iff. destruct (isspace c); simpl; auto.
  by rewrite Hc.
Qed.

Lemma str_all_rstrip p s : str_all p s = true → str_all p (rstrip s) = true.
Proof.
  induction s as [|c s IH]; simpl; [done|].
  intros [Hc Hs]%andb_true_iff.
  destruct (isspace c && is_empty (rstrip s)); simpl; [done|].
  rewrite Hc. auto.
Qed.

Lemma str_all_strip p s : str_all p s = true → str_all p (strip s) = true.
Proof. intros. by apply str_all_rstrip, str_all_lstrip. Qed.

(** *** [split] and [join] *)

Lemma starts_token_lower s : starts_token (lower s) = starts_token s.
Proof. destruct s; simpl; [done|]. by rewrite isspace_lower_char. Qed.

Lemma starts_token_rstrip s : starts_token (rstrip s) = starts_token s.
Proof.
  destruct s as [|c s]; simpl; [done|].
  destruct (isspace c) eqn:E; simpl; [|by rewrite E].
  destruct (is_empty (rstrip s)); simpl; [done|by rewrite E].
Qed.

Lemma split_tokens s : Forall token (split s).
Proof.
  induction s as [|c s IH]; simpl; [constructor|].
  destruct (isspace c) eqn:E; [done|].
  assert (token (String c "")) as Hc.
  { split; [done|]. simpl. unfold nonspace. by rewrite E. }
  destruct (starts_token s); [|by constructor].
  destruct (split s) as [|w ws]; [by constructor|].
  inversion IH as [|? ? [_ Hw] Hws]; subst. constructor; [|done].
  split; [done|]. simpl. unfold nonspace at 1. by rewrite E.
Qed.

Lemma split_lower s : split (lower s) = lower <$> split s.
Proof.
  induction s as [|c s IH]; simpl; [done|].
  rewrite isspace_lower_char, starts_token_lower, IH.
  destruct (isspace c); [done|].
  destruct (starts_token s); [|done].
  by destruct (split s).
Qed.

Lemma split_lstrip s : split (lstrip s) = split s.
Proof.
  induction s as [|c s IH]; simpl; [done|].
  destruct (isspace c) eqn:E; [done|]. simpl. by rewrite E.
Qed.

Lemma split_rstrip s : split (rstrip s) = split s.
Proof.
  induction s as [|c s IH]; simpl; [done|].
  destruct (isspace c) eqn:E; simpl.
  - destruct (rstrip s) eqn:Hr; simpl; [done|].
    rewrite E. done.
  - rewrite E, starts_token_rstrip, IH. done.
Qed.

Lemma split_strip s : split (strip s) = split s.
Proof. unfold strip. by rewrite split_rstrip, split_lstrip. Qed.

Lemma split_token_app c w sp rest :
  isspace c = false → str_all nonspace w = true → isspace sp = true →
  split (String c (w +:+ String sp rest)) = String c w :: split rest.
Proof.
  revert c. induction w as [|c' w IH]; intros c Hc Hw Hsp.
  - simpl. by rewrite Hc, Hsp.
  - simpl in Hw. apply andb_true_iff in Hw as [Hc' Hw].
    unfold nonspace in Hc'. apply negb_true_iff in Hc'.
    change (String c' w +:+ String sp rest) with (String c' (w +:+ String sp rest)).
    specialize (IH c' Hc' Hw Hsp).
    cbn [split]. rewrite Hc. cbn [starts_token]. rewrite Hc'. cbn [negb].
    cbn [split] in IH. rewrite Hc' in IH. rewrite IH. done.
Qed.

Lemma split_token c w :
  isspace c = false → str_all nonspace w = true →
  split (String c w) = [String c w].
Proof.
  revert c. induction w as [|c' w IH]; intros c Hc Hw.
  - simpl. by rewrite Hc.
  - simpl in Hw. apply andb_true_iff in Hw as [Hc' Hw].
    unfold nonspace in Hc'. apply negb_true_iff in Hc'.
    specialize (IH c' Hc' Hw).
    cbn [split]. rewrite Hc. cbn [starts_token]. rewrite Hc'. cbn [negb].
    cbn [split] in IH. rewrite Hc' in IH. rewrite IH. done.
Qed.

Lemma token_inv w :
  token w → ∃ c w', w = String c w' ∧ isspace c = false ∧ str_all nonspace w' = true.
Proof.
  intros [Hne Hall]. destruct w as [|c w']; [done|].
  simpl in Hall. apply andb_true_iff in Hall as [Hc Hw].
  exists c, w'. split_and!; [done| |done].
  unfold nonspace in Hc. by apply negb_true_iff in Hc.
Qed.

Lemma split_join toks : Forall token toks → split (join " " toks) = toks.
Proof.
  induction toks as [|w toks IH]; [done|].
  intros Htoks. inversion Htoks as [|? ? Hw Hrest]; subst.
  apply token_inv in Hw as (c & w' & -> & Hc & Hw').
  destruct toks as [|w2 toks].
  - simpl. by apply split_token.
  - specialize (IH Hrest).
    change (join " " (String c w' :: w2 :: toks))
      with (String c (w' +:+ String " " (join " " (w2 :: toks)))).
    rewrite split_token_app by done. by rewrite IH.
Qed.

Lemma str_all_split p s :
  str_all p s = true → Forall (λ w, str_all p w = true) (split s).
Proof.
  induction s as [|c s IH]; simpl; [constructor|].
  intros [Hc Hs]%andb_true_iff. specialize (IH Hs).
  assert (str_all p (String c "") = true) as Hc1 by (simpl; by rewrite Hc).
  destruct (isspace c); [done|].
  destruct (starts_token s); [|by constructor].
  destruct (split s) as [|w ws]; [by constructor|].
  inversion IH; subst. constructor; [|done]. simpl. by rewrite Hc.
Qed.

Lemma str_all_join p sep l :
  str_all p sep = true → Forall (λ w, str_all p w = true) l →
  str_all p (join sep l) = true.
Proof.
  intros Hsep. induction 1 as [|w l Hw Hl IH]; [done|].
  destruct l as [|w2 l]; [done|].
  change (join sep (w :: w2 :: l)) with (w +:+ sep +:+ join sep (w2 :: l)).
  by rewrite !str_all_app, Hw, Hsep, IH.
Qed.

Lemma str_in_split a s :
  str_in a s → isspace a = false → ∃ w, w ∈ split s ∧ str_in a w.
Proof.
  induction s as [|c s IH]; simpl; [done|].
  intros [->|Hin] Ha.
  - rewrite Ha. destruct (starts_token s).
    + destruct (split s) as [|w ws].
      * exists (String c ""). split; [apply list_elem_of_here|by left].
      * exists (String c w). split; [apply list_elem_of_here|by left].
    + exists (String c ""). split; [apply list_elem_of_here|by left].
  - destruct (IH Hin Ha) as (w & Hw & Haw).
    destruct (isspace c); [by exists w|].
    destruct (starts_token s).
    + destruct (split s) as [|w1 ws]; [by apply elem_of_nil in Hw|].
      apply elem_of_cons in Hw as [->|Hw].
      * exists (String c w1). split; [apply list_elem_of_here|by right].
      * exists w. split; [by apply list_elem_of_further|done].
    + exists w. split; [by apply list_elem_of_further|done].
Qed.

Lemma str_in_join a sep l w : w ∈ l → str_in a w → str_in a (join sep l).
Proof.
  intros Hw Ha. induction l as [|w1 l IH]; [by apply elem_of_nil in Hw|].
  destruct l as [|w2 l].
  - apply elem_of_cons in Hw as [->|Hw]; [done|by apply elem_of_nil in Hw].
  - change (join sep (w1 :: w2 :: l)) with (w1 +:+ sep +:+ join sep (w2 :: l)).
    rewrite !str_in_app.
    apply elem_of_cons in Hw as [->|Hw]; [by left|]. right; right. auto.
Qed.

(** ** The normalizer *)

Lemma clean_word_unfold word :
  WordMatcher._clean_word word
  = str_filter kept_char (join " " (split (lower (strip word)))).
Proof. reflexivity. Qed.

Lemma collapsed_kept x :
  str_all kept_char x = true →
  str_all kept_char (join " " (split (lower (strip x)))) = true.
Proof.
  intros Hx. apply str_all_join; [done|].
  apply str_all_split, str_all_lower; [apply kept_lower_char|].
  by apply str_all_strip.
Qed.

Lemma collapsed_fixed x :
  let y := join " " (split (lower (strip x))) in
  join " " (split (lower (strip y))) = y.
Proof.
  intros y. f_equal. rewrite split_lower, split_strip. unfold y.
  rewrite split_join by apply split_tokens.
  rewrite split_lower, <- list_fmap_compose.
  apply list_fmap_ext. intros _ w _. simpl. apply lower_idem.
Qed.

(** ** Input validation *)

Lemma match_run_spec p consumed s :
  p "010"%char = true →
  TextProcessor.match_run p consumed s
  = (consumed || negb (is_empty s)) && str_all p s.
Proof.
  intros Hnl. revert consumed. induction s as [|c s IH]; intros consumed.
  - simpl. by destruct consumed.
  - cbn [TextProcessor.match_run str_all is_empty negb]. rewrite IH.
    rewrite orb_true_r. cbn [orb andb].
    destruct consumed; [|done]. cbn [andb].
    destruct (TextProcessor.at_dollar (String c s)) eqn:Hd; [|done].
    cbn [orb]. destruct s; [|done]. simpl in Hd.
    apply N.eqb_eq in Hd.
    assert (c = "010"%char) as ->.
    { rewrite <- (ascii_N_embedding c). unfold code in Hd. by rewrite Hd. }
    by rewrite Hnl.
Qed.

Lemma validate_input_spec text :
  fst (TextProcessor.validate_input text) = true
  ↔ strip text ≠ "" ∧ String.length (strip text) ≤ 100
    ∧ str_all TextProcessor.valid_char (strip text) = true.
Proof.
  unfold TextProcessor.validate_input.
  destruct (is_empty (strip text)) eqn:E1.
  { rewrite orb_true_r. simpl. apply is_empty_true in E1. split; [done|].
    by intros [? _]. }
  assert (is_empty text = false) as ->.
  { destruct text; [done|done]. }
  apply is_empty_false in E1. cbn [orb].
  destruct (Nat.ltb_spec 100 (String.length (strip text))) as [Hlen|Hlen].
  { simpl. split; [done|]. intros (_ & ? & _). lia. }
  rewrite match_run_spec by done. cbn [orb].
  apply is_empty_false in E1. rewrite E1. cbn [negb andb].
  apply is_empty_false in E1.
  destruct (str_all TextProcessor.valid_char (strip text)); simpl.
  - split; [done|]. done.
  - split; [done|]. by intros (_ & _ & ?).
Qed.

Lemma validate_input_message text :
  fst (TextProcessor.validate_input text) = true →
  TextProcessor.validate_input text = (true, "").
Proof.
  unfold TextProcessor.validate_input.
  repeat match goal with |- context [if ?b then _ else _] => destruct b end;
    simpl; done.
Qed.

Lemma digit_survives_clean d text :
  isdigit_ascii d = true → str_in d text → str_in d (WordMatcher._clean_word text).
Proof.
  intros Hd Hin. destruct (isdigit_facts d Hd) as (Hlow & Hsp & Hw & _).
  rewrite clean_word_unfold. apply str_in_filter.
  - apply str_in_strip in Hin; [|done].
    apply str_in_lower in Hin. rewrite Hlow in Hin.
    apply str_in_split in Hin as (w & Hw1 & Hw2); [|done].
    by eapply str_in_join.
  - unfold kept_char. by rewrite Hw.
Qed.

(** C6, as the specification states it, fails: filtering after the collapse
    can bring two spaces together, which a second pass then merges. *)
Lemma clean_word_not_idempotent :
  WordMatcher._clean_word "a . b" = "a  b"
  ∧ WordMatcher._clean_word (WordMatcher._clean_word "a . b") = "a b"
  ∧ WordMatcher._clean_word (WordMatcher._clean_word "a . b")
    ≠ WordMatcher._clean_word "a . b".
Proof. vm_compute. split_and!; done. Qed.

(** ** Choosing a translation among matching rows *)

Lemma filter_first {A} (p : A → bool) (l : list A) :
  (List.filter p l = [] ∧ Forall (λ x, p x = false) l)
  ∨ ∃ pre x post,
      l = pre ++ x :: post ∧ Forall (λ y, p y = false) pre ∧ p x = true
      ∧ List.filter p l = x :: List.filter p post.
Proof.
  induction l as [|a l IH]; [left; split; [done|constructor]|].
  simpl. destruct (p a) eqn:E.
  - right. exists [], a, l. split_and!; [done|constructor|done|done].
  - destruct IH as [[Hf Hall]|(pre & x & post & -> & Hpre & Hx & Hf)].
    + left. split; [done|by constructor].
    + right. exists (a :: pre), x, post. split_and!; [done|by constructor|done|done].
Qed.

Lemma filter_skip {A} (p : A → bool) pre x post :
  Forall (λ y, p y = false) pre → p x = true →
  List.filter p (pre ++ x :: post) = x :: List.filter p post.
Proof.
  intros Hpre Hx. induction Hpre as [|a pre Ha _ IH]; simpl.
  - by rewrite Hx.
  - by rewrite Ha.
Qed.

Lemma valid_cell_spec cols lang r :
  WordMatcher.valid_cell cols lang r = true
  ↔ ∃ s, cell_at cols lang r = Some s ∧ strip s ≠ "".
Proof.
  unfold WordMatcher.valid_cell. destruct (cell_at cols lang r) as [s|].
  - rewrite negb_true_iff, is_empty_false. split; [by exists s|].
    by intros (s' & [= <-] & ?).
  - split; [done|]. by intros (s' & ? & _).
Qed.

Lemma get_best_first m lang pre r post s :
  rows m = pre ++ r :: post →
  Forall (λ r', WordMatcher.valid_cell (columns m) lang r' = false) pre →
  cell_at (columns m) lang r = Some s → strip s ≠ "" →
  WordMatcher._get_best_translation m lang = Some (strip s).
Proof.
  intros Hrows Hpre Hcell Hs. unfold WordMatcher._get_best_translation.
  assert (empty_frame m = false) as ->.
  { unfold empty_frame. rewrite Hrows. by destruct pre. }
  cbn [select rows]. rewrite Hrows, filter_skip; [|done|].
  - rewrite Hcell. apply is_empty_false in Hs. by rewrite Hs.
  - apply valid_cell_spec. eauto.
Qed.

Lemma get_best_Some m lang t :
  WordMatcher._get_best_translation m lang = Some t →
  ∃ pre r post s,
    rows m = pre ++ r :: post
    ∧ Forall (λ r', WordMatcher.valid_cell (columns m) lang r' = false) pre
    ∧ cell_at (columns m) lang r = Some s ∧ strip s ≠ "" ∧ t = strip s.
Proof.
  unfold WordMatcher._get_best_translation. destruct (empty_frame m); [done|].
  cbn [select rows].
  destruct (filter_first (WordMatcher.valid_cell (columns m) lang) (rows m))
    as [[-> _]|(pre & x & post & Hrows & Hpre & Hx & ->)]; [done|].
  destruct (cell_at (columns m) lang x) as [s|] eqn:Hcell; [|done].
  destruct (is_empty (strip s)) eqn:Hs; [done|]. intros [= <-].
  exists pre, x, post, s. split_and!; try done. by apply is_empty_false.
Qed.

Lemma get_best_None m lang :
  WordMatcher._get_best_translation m lang = None
  ↔ Forall (λ r, WordMatcher.valid_cell (columns m) lang r = false) (rows m).
Proof.
  split.
  - unfold WordMatcher._get_best_translation, empty_frame.
    destruct (rows m) as [|r0 l] eqn:Hrows; [constructor|].
    cbn [select rows]. rewrite Hrows.
    destruct (filter_first (WordMatcher.valid_cell (columns m) lang) (r0 :: l))
      as [[_ Hall]|(pre & x & post & _ & _ & Hx & ->)]; [done|].
    apply valid_cell_spec in Hx as (s & -> & Hs).
    apply is_empty_false in Hs. by rewrite Hs.
  - intros Hall. destruct (WordMatcher._get_best_translation m lang) as [t|] eqn:E; [|done].
    apply get_best_Some in E as (pre & r & post & s & Hrows & _ & Hcell & Hs & _).
    rewrite Hrows in Hall. apply Forall_app in Hall as [_ Hall].
    inversion Hall as [|? ? Hr _]; subst.
    assert (WordMatcher.valid_cell (columns m) lang r = true) as Hv
      by (apply valid_cell_spec; eauto).
    congruence.
Qed.


Lemma get_best_clean m lang : clean_result (WordMatcher._get_best_translation m lang).
Proof.
  intros t (pre & r & post & s & _ & _ & _ & Hs & ->)%get_best_Some.
  split; [done|apply strip_idem].
Qed.

Lemma column_index_elem name cols i : column_index name cols = Some i → name ∈ cols.
Proof.
  revert i. induction cols as [|c cols IH]; intros i; simpl; [done|].
  case_bool_decide as E; [subst; intros _; apply list_elem_of_here|].
  destruct (column_index name cols); [|done]. intros _.
  apply list_elem_of_further. eauto.
Qed.

Lemma cell_at_has_column df lang r s :
  cell_at (columns df) lang r = Some s → has_column df lang = true.
Proof.
  unfold cell_at, has_column. case_bool_decide; [done|]. simpl.
  destruct (column_index lang (columns df)) eqn:E; [|done]. intros _.
  apply bool_decide_eq_true. by eapply column_index_elem.
Qed.

(** ** The fuzzy tier *)

Lemma Qlt_bool_iff x y : Qlt_bool x y = true ↔ (x < y)%Q.
Proof.
  unfold Qlt_bool. rewrite negb_true_iff, <- not_true_iff_false, Qle_bool_iff.
  split; [apply Qnot_le_lt|apply Qlt_not_le].
Qed.

Lemma similarity_is_jaccard a b : WordMatcher.similarity_of a b = jaccard a b.
Proof.
  unfold WordMatcher.similarity_of, jaccard. case_bool_decide as E; [|done].
  rewrite E. apply empty_union_L in E as [-> _].
  assert ((∅ : gset string) ∩ b = ∅) as -> by apply (left_absorb_L _ _).
  by rewrite size_empty.
Qed.

Lemma score_disjoint wp r :
  wp ∩ entry_parts r = ∅ → Qle_bool (1 # 2) (score wp r) = false.
Proof.
  unfold score, jaccard. intros Hd. case_bool_decide; [done|].
  by rewrite Hd, size_empty.
Qed.

Lemma get_best_single cols lang r :
  WordMatcher._get_best_translation (mkFrame cols [r]) lang
  = if WordMatcher.valid_cell cols lang r
    then Some (strip (default "" (cell_at cols lang r)))
    else None.
Proof.
  unfold WordMatcher._get_best_translation. cbn.
  unfold WordMatcher.valid_cell.
  destruct (cell_at cols lang r) as [s|] eqn:E; [|done].
  destruct (is_empty (strip s)) eqn:Hs; cbn; [done|].
  rewrite E. cbn beta iota. by rewrite Hs.
Qed.


Lemma get_best_of_row_inv cols x lang o :
  WordMatcher._get_best_translation_of_row cols x lang = Value o →
  is_Some (cell_at cols lang x)
  ∧ o = (if WordMatcher.valid_cell cols lang x
         then Some (strip (default "" (cell_at cols lang x)))
         else None).
Proof.
  unfold WordMatcher._get_best_translation_of_row.
  destruct (negb (has_column _ lang)); [done|].
  destruct (cell_at cols lang x) as [s|] eqn:Hs; [|done].
  intros [= <-]. split; [by eexists|]. by rewrite get_best_single, Hs.
Qed.


(** The row does not beat the best score, or is below the threshold: the
    turn leaves the state as it is and looks at no cell. *)
Lemma fuzzy_step_skip wp lang cols st x :
  Qlt_bool (snd st) (score wp x) && Qle_bool (1 # 2) (score wp x) = false →
  WordMatcher.fuzzy_step wp lang cols st x = Value st.
Proof.
  intros Hlow. unfold WordMatcher.fuzzy_step.
  destruct (is_empty (strip (lower (english x)))); [done|].
  fold (entry_parts x). case_bool_decide; [|done].
  rewrite similarity_is_jaccard. fold (score wp x). by rewrite Hlow.
Qed.

(** The row beats the best score and reaches the threshold: the turn reads
    the translation of the row. *)
Lemma fuzzy_step_beats wp lang cols st x :
  Qlt_bool (snd st) (score wp x) && Qle_bool (1 # 2) (score wp x) = true →
  WordMatcher.fuzzy_step wp lang cols st x
  = match WordMatcher._get_best_translation_of_row cols x lang with
    | Value translation =>
        Value (if truthy translation then (translation, score wp x) else st)
    | Throws e => Throws e
    end.
Proof.
  intros Hhigh. unfold WordMatcher.fuzzy_step.
  apply andb_true_iff in Hhigh as Hboth. destruct Hboth as [_ Hhalf].
  destruct (is_empty (strip (lower (english x)))) eqn:Hentry.
  { apply is_empty_true in Hentry.
    rewrite (score_disjoint wp x) in Hhalf; [done|].
    unfold entry_parts. rewrite Hentry. apply (right_absorb_L _ _). }
  fold (entry_parts x). case_bool_decide as Hunion.
  - rewrite similarity_is_jaccard. fold (score wp x). by rewrite Hhigh.
  - rewrite (score_disjoint wp x) in Hhalf; [done|].
    apply empty_union_L in Hunion as [-> _]. apply (left_absorb_L _ _).
Qed.

Lemma fuzzy_step_value wp lang cols st x st' :
  WordMatcher.fuzzy_step wp lang cols st x = Value st' →
  st' = if Qlt_bool (snd st) (score wp x) && Qle_bool (1 # 2) (score wp x)
           && WordMatcher.valid_cell cols lang x
        then (Some (strip (default "" (cell_at cols lang x))), score wp x)
        else st.
Proof.
  destruct (Qlt_bool (snd st) (score wp x) && Qle_bool (1 # 2) (score wp x)) eqn:Hc.
  - rewrite fuzzy_step_beats by done. cbn [andb].
    destruct (WordMatcher._get_best_translation_of_row cols x lang) as [o|e] eqn:Ho; [|done].
    apply get_best_of_row_inv in Ho as [_ ->]. intros [= <-].
    destruct (WordMatcher.valid_cell cols lang x) eqn:Hv; [|done].
    apply valid_cell_spec in Hv as (s & Hcell & Hs). rewrite Hcell.
    change (default "" (Some s)) with s. cbn [truthy].
    apply is_empty_false in Hs. by rewrite Hs.
  - rewrite fuzzy_step_skip by done. by intros [= <-].
Qed.

Lemma fuzzy_step_best wp cols lang seen st x st' :
  WordMatcher.fuzzy_step wp lang cols st x = Value st' →
  best_so_far wp cols lang seen st →
  best_so_far wp cols lang (seen ++ [x]) st'.
Proof.
  intros -> %fuzzy_step_value Hinv.
  destruct (Qlt_bool (snd st) (score wp x)) eqn:Hlt;
    [destruct (Qle_bool (1 # 2) (score wp x)) eqn:Hle;
      [destruct (WordMatcher.valid_cell cols lang x) eqn:Hv|]|]; cbn [andb].
  - (* a strictly better row: it becomes the best one *)
    apply Qlt_bool_iff in Hlt. apply Qle_bool_iff in Hle.
    apply valid_cell_spec in Hv as (s & Hcell & Hs).
    unfold best_so_far. cbn [fst snd].
    exists seen, x, [], s. rewrite Hcell. split_and!; try done.
    unfold best_so_far in Hinv. destruct (fst st) as [t|].
    + destruct Hinv as (p1 & r & p2 & s' & -> & _ & _ & _ & Hbs & _ & Hp1 & Hp2).
      rewrite Hbs in Hlt.
      apply Forall_app. split; [|constructor].
      * eapply Forall_impl; [exact Hp1|]. intros r' Hr' He.
        eapply Qlt_trans; [by apply Hr'|done].
      * intros _. done.
      * eapply Forall_impl; [exact Hp2|]. intros r' Hr' He.
        eapply Qle_lt_trans; [by apply Hr'|done].
    + destruct Hinv as [_ Hnone].
      eapply Forall_impl; [exact Hnone|]. intros r' Hr' He. done.
  - (* the row has no translation *)
    assert (¬ eligible wp cols lang x) as Hx.
    { intros [_ Ht%valid_cell_spec]. congruence. }
    unfold best_so_far in *. destruct (fst st) as [t|].
    + destruct Hinv as (p1 & r & p2 & s' & -> & ? & ? & ? & ? & ? & ? & Hp2).
      exists p1, r, (p2 ++ [x]), s'. rewrite <- app_assoc. split_and!; try done.
      apply Forall_app. split; [done|]. constructor; [done|constructor].
    + destruct Hinv as [? Hnone]. split; [done|].
      apply Forall_app. split; [done|]. constructor; [done|constructor].
  - (* the row is below the threshold *)
    assert (¬ eligible wp cols lang x) as Hx.
    { intros [H%Qle_bool_iff _]. congruence. }
    unfold best_so_far in *. destruct (fst st) as [t|].
    + destruct Hinv as (p1 & r & p2 & s' & -> & ? & ? & ? & ? & ? & ? & Hp2).
      exists p1, r, (p2 ++ [x]), s'. rewrite <- app_assoc. split_and!; try done.
      apply Forall_app. split; [done|]. constructor; [done|constructor].
    + destruct Hinv as [? Hnone]. split; [done|].
      apply Forall_app. split; [done|]. constructor; [done|constructor].
  - (* the row does not beat the best score *)
    assert (score wp x <= snd st)%Q as Hx.
    { apply Qnot_lt_le. intros H%Qlt_bool_iff. congruence. }
    unfold best_so_far in *. destruct (fst st) as [t|].
    + destruct Hinv as (p1 & r & p2 & s' & -> & ? & ? & ? & Hbs & ? & ? & Hp2).
      exists p1, r, (p2 ++ [x]), s'. rewrite <- app_assoc. split_and!; try done.
      apply Forall_app. split; [done|]. constructor; [|constructor].
      intros _. by rewrite <- Hbs.
    + destruct Hinv as [Hbs Hnone]. split; [done|].
      apply Forall_app. split; [done|]. constructor; [|constructor].
      intros [Hhalf _]. rewrite Hbs in Hx.
      assert (1 # 2 <= 0)%Q as Habs by (eapply Qle_trans; eauto).
      by vm_compute in Habs.
Qed.

Lemma fuzzy_loop_best wp cols lang l seen st st' :
  WordMatcher.fuzzy_loop wp lang cols st l = Value st' →
  best_so_far wp cols lang seen st →
  best_so_far wp cols lang (seen ++ l) st'.
Proof.
  revert seen st. induction l as [|x l IH]; intros seen st Hrun Hinv.
  - simpl in Hrun. injection Hrun as <-. by rewrite app_nil_r.
  - simpl in Hrun.
    destruct (WordMatcher.fuzzy_step wp lang cols st x) as [st1|e] eqn:Hstep; [|done].
    replace (seen ++ x :: l) with ((seen ++ [x]) ++ l) by by rewrite <- app_assoc.
    eapply IH; [exact Hrun|]. by eapply fuzzy_step_best.
Qed.

Lemma fuzzy_match_best word lang df o :
  WordMatcher._fuzzy_match word lang df = Value o →
  ∃ q, best_so_far (list_to_set (split word)) (columns df) lang (rows df) (o, q).
Proof.
  unfold WordMatcher._fuzzy_match.
  destruct (WordMatcher.fuzzy_loop _ lang (columns df) (None, 0%Q) (rows df))
    as [[best q]|e] eqn:Hrun; [|done].
  intros [= <-]. exists q.
  apply (fuzzy_loop_best _ _ _ (rows df) [] _ _ Hrun). split; [done|constructor].
Qed.

Lemma fuzzy_match_selection word lang df o :
  WordMatcher._fuzzy_match word lang df = Value o →
  best_eligible (list_to_set (split word)) df lang o.
Proof.
  intros [q Hinv]%fuzzy_match_best.
  unfold best_so_far in Hinv. cbn [fst snd] in Hinv. unfold best_eligible.
  destruct o as [t|].
  - destruct Hinv as (p1 & r & p2 & s & ? & ? & ? & ? & _ & ? & ? & ?).
    exists p1, r, p2, s. done.
  - by destruct Hinv.
Qed.

Lemma fuzzy_match_clean word lang df o :
  WordMatcher._fuzzy_match word lang df = Value o → clean_result o.
Proof.
  intros Hsel%fuzzy_match_selection t ->.
  destruct Hsel as (_ & _ & _ & s & _ & _ & Hs & -> & _).
  split; [done|apply strip_idem].
Qed.










(** The fuzzy tier does not pass over a missing cell: the row
    "good morning" of the sample table has none for Haya, it reaches the
    threshold for the query, and the call on its one-row frame raises
    [AttributeError], which leaves [search_in_csv]. *)
Lemma fuzzy_tier_fails_on_missing_cell :
  cell_at (columns df_demo) "haya" (mkRow "good morning" [Some " habari za asubuhi "; None])
  = None
  ∧ WordMatcher._fuzzy_match "morning good" "haya" df_demo = Throws AttributeError
  ∧ WordMatcher.search_in_csv stable_sort_by_len "morning good" "haya" df_demo
    = Throws AttributeError.
Proof. split_and!; reflexivity. Qed.



(** ** The cascade *)

Section Cascade.

Variable sort_values : list Row → list Row.

Lemma partial_match_clean word lang df :
  clean_result (WordMatcher._partial_match sort_values word lang df).
Proof.
  unfold WordMatcher._partial_match.
  match goal with |- context [negb ?b] => destruct b end; cbn [negb].
  - by intros t.
  - apply get_best_clean.
Qed.

Lemma search_in_csv_clean english_word lang df o :
  WordMatcher.search_in_csv sort_values english_word lang df = Value o →
  clean_result o.
Proof.
  unfold WordMatcher.search_in_csv.
  destruct (empty_frame df || negb (has_column df lang)); [by intros [= <-] t|].
  repeat match goal with
         | |- context [if truthy ?o then _ else _] => destruct (truthy o)
         end; try (intros [= <-]; first [apply get_best_clean|apply partial_match_clean]).
  destruct (WordMatcher._fuzzy_match _ lang df) as [f|e] eqn:Hf; [|done].
  destruct (truthy f); intros [= <-]; [by eapply fuzzy_match_clean|by intros t].
Qed.

Lemma exact_match_first word lang df pre r post s :
  rows df = pre ++ r :: post →
  strip (lower (english r)) = word →
  cell_at (columns df) lang r = Some s → strip s ≠ "" →
  Forall (λ r', strip (lower (english r')) = word
                → WordMatcher.valid_cell (columns df) lang r' = false) pre →
  WordMatcher._exact_match word lang df = Some (strip s).
Proof.
  intros Hrows Hr Hcell Hs Hpre. unfold WordMatcher._exact_match.
  set (p := λ r0 : Row, bool_decide (strip (lower (english r0)) = word)).
  apply (get_best_first _ lang (List.filter p pre) r (List.filter p post)); try done.
  - cbn [select rows]. rewrite Hrows, List.filter_app. cbn [List.filter].
    unfold p at 2. by rewrite bool_decide_eq_true_2.
  - cbn [select columns]. apply Forall_forall. intros r' Hr'.
    apply list_elem_of_In, filter_In in Hr' as [Hin Hp].
    rewrite Forall_forall in Hpre. apply Hpre; [by apply list_elem_of_In|].
    unfold p in Hp. by apply bool_decide_eq_true in Hp.
Qed.

End Cascade.

(** C1, as the specification states it, fails: the table entry is compared
    lower-cased and trimmed, not normalized, so an entry with punctuation in
    it is never an exact match of the query that normalizes to the same word. *)
Lemma exact_tier_misses_punctuated_entry :
  let r := mkRow "o.k." [Some "sawa"] in
  let df := mkFrame ["swahili"] [r] in
  WordMatcher._clean_word (english r) = WordMatcher._clean_word "ok"
  ∧ WordMatcher.valid_cell (columns df) "swahili" r = true
  ∧ ∀ sort_values, WordMatcher.search_in_csv sort_values "ok" "swahili" df = Value None.
Proof. split_and!; [reflexivity|reflexivity|]. intros sort_values. reflexivity. Qed.

(** C1, amended: if the entry of some row, lower-cased and trimmed, equals
    the normalized query, and such a row has a non-blank translation for the
    target language, then the exact tier returns the trimmed translation of
    the first such row in load order and [search_in_csv] returns it. *)
Theorem exact_tier_first_valid_row
    (sort_values : list Row → list Row) (english_word lang : string) (df : DataFrame)
    (pre : list Row) (r : Row) (post : list Row) (s : string) :
  rows df = pre ++ r :: post →
  strip (lower (english r)) = WordMatcher._clean_word english_word →
  cell_at (columns df) lang r = Some s → strip s ≠ "" →
  Forall (λ r', strip (lower (english r')) = WordMatcher._clean_word english_word
                → WordMatcher.valid_cell (columns df) lang r' = false) pre →
  WordMatcher._exact_match (WordMatcher._clean_word english_word) lang df = Some (strip s)
  ∧ WordMatcher.search_in_csv sort_values english_word lang df = Value (Some (strip s)).
Proof.
  intros Hrows Hr Hcell Hs Hpre.
  pose proof (exact_match_first _ lang df pre r post s Hrows Hr Hcell Hs Hpre) as He.
  split; [done|]. unfold WordMatcher.search_in_csv.
  assert (empty_frame df = false) as ->.
  { unfold empty_frame. rewrite Hrows. by destruct pre. }
  rewrite (cell_at_has_column df lang r s Hcell). cbn [orb negb].
  rewrite He. cbn [truthy]. apply is_empty_false in Hs. by rewrite Hs.
Qed.

Lemma exact_tier_first_valid_row_witness :
  WordMatcher._exact_match (WordMatcher._clean_word " CAT ") "swahili" df_cats = Some "paka"
  ∧ WordMatcher.search_in_csv stable_sort_by_len " CAT " "swahili" df_cats
    = Value (Some "paka").
Proof.
  apply (exact_tier_first_valid_row stable_sort_by_len " CAT " "swahili" df_cats
           [mkRow "cats" [Some "paka-ish"]; mkRow "Cat" [Some " "]]
           (mkRow " cat" [Some " paka "]) [mkRow "cat" [Some "paka wa pili"]] " paka ").
  - reflexivity.
  - reflexivity.
  - reflexivity.
  - discriminate.
  - constructor; [intros H; vm_compute in H; discriminate H|].
    constructor; [intros _; reflexivity|]. constructor.
Defined.

(** ** The partial tier *)

Lemma filter_none {A} (p : A → bool) l :
  (∀ x, x ∈ l → p x = false) → List.filter p l = [].
Proof.
  induction l as [|a l IH]; [done|]. intros H. simpl.
  rewrite (H a) by apply list_elem_of_here.
  apply IH. intros x Hx. apply H. by apply list_elem_of_further.
Qed.

Lemma filter_all {A} (p : A → bool) l :
  (∀ x, x ∈ l → p x = true) → List.filter p l = l.
Proof.
  induction l as [|a l IH]; [done|]. intros H. simpl.
  rewrite (H a) by apply list_elem_of_here. f_equal.
  apply IH. intros x Hx. apply H. by apply list_elem_of_further.
Qed.

Lemma filter_twice {A} (p q : A → bool) l :
  List.filter p (List.filter q l) = List.filter (λ x, q x && p x) l.
Proof.
  induction l as [|a l IH]; [done|]. simpl.
  destruct (q a); simpl; [|done]. destruct (p a); [by f_equal|done].
Qed.

Lemma drop_duplicates_elem r l : r ∈ drop_duplicates l → r ∈ l.
Proof.
  revert r. induction l as [|a l IH]; intros r; [done|]. simpl.
  intros [->|Hr]%elem_of_cons; [apply list_elem_of_here|].
  apply list_elem_of_In, filter_In in Hr as [Hr _].
  apply list_elem_of_further, IH. by apply list_elem_of_In.
Qed.

Lemma drop_duplicates_app l1 l2 :
  drop_duplicates (l1 ++ l2)
  = drop_duplicates l1 ++ List.filter (λ r, bool_decide (r ∉ l1)) (drop_duplicates l2).
Proof.
  induction l1 as [|a l1 IH].
  - simpl. symmetry. apply filter_all. by intros x _.
  - simpl. rewrite IH, List.filter_app, filter_twice. do 2 f_equal.
    apply List.filter_ext. intros r.
    destruct (decide (r = a)) as [->|Hne].
    + rewrite (bool_decide_eq_false_2 (a ≠ a)) by (intros H; by apply H).
      rewrite andb_false_r.
      symmetry. apply bool_decide_eq_false. intros H. apply H, list_elem_of_here.
    + rewrite (bool_decide_eq_true_2 (r ≠ a)) by done. rewrite andb_true_r.
      apply bool_decide_ext. rewrite not_elem_of_cons. tauto.
Qed.

(** The two masks of [_partial_match] test the same direction: the second
    one, [word in x], again selects the entries that contain the query, so
    the candidates are the rows whose entry contains the query and no other. *)
Lemma partial_match_candidates word df :
  let contains_matches := select (λ r, contains word (lower (english r))) df in
  let contained_matches :=
    select (λ r, let x := lower (english r) in
                 if is_empty x then false else contains word x) df in
  drop_duplicates (rows contains_matches ++ rows contained_matches)
  = drop_duplicates (rows contains_matches).
Proof.
  intros cm dm. rewrite drop_duplicates_app.
  rewrite filter_none; [by rewrite app_nil_r|].
  intros r Hr%drop_duplicates_elem. apply bool_decide_eq_false. intros Hnot.
  apply Hnot. unfold dm, cm in *. cbn [select rows] in *.
  apply list_elem_of_In, filter_In in Hr as [Hin Hc].
  apply list_elem_of_In, filter_In. split; [done|].
  cbn zeta in Hc. by destruct (is_empty (lower (english r))).
Qed.

(** C5: the code misses the second direction.  The entry "book" is contained
    in the query "notebook", yet the partial tier has no candidate for it and
    the whole search finds nothing; the shorter of two entries that contain
    the query does win. *)
Theorem partial_match_misses_contained_entry (sort_values : list Row → list Row) :
  contains "book" "notebook" = true
  ∧ WordMatcher._partial_match sort_values "notebook" "swahili" df_book = None
  ∧ WordMatcher.search_in_csv sort_values "notebook" "swahili" df_book = Value None
  ∧ WordMatcher._partial_match stable_sort_by_len "book" "swahili" df_demo = Some "kitabu".
Proof. split_and!; reflexivity. Qed.

(** ** The remote translation service *)

Lemma calls_snoc tr e : calls (tr ++ [e]) = calls tr + (if is_call e then 1 else 0).
Proof.
  unfold calls. rewrite List.filter_app, length_app. simpl. by destruct (is_call e).
Qed.

Lemma messages_network_error :
  Config.MESSAGES !!! "network_error"
  = "Network timeout - please check your internet connection".
Proof. reflexivity. Qed.

Lemma prefix_of_lower p s :
  prefix_of p s = true → prefix_of (lower p) (lower s) = true.
Proof.
  revert s. induction p as [|a p IH]; intros [|b s]; simpl; try done.
  intros [Hab Hp]%andb_true_iff. apply bool_decide_eq_true in Hab as ->.
  rewrite bool_decide_eq_true_2 by done. by apply IH.
Qed.

Lemma contains_lower sub s :
  contains sub s = true → contains (lower sub) (lower s) = true.
Proof.
  induction s as [|c s IH]; simpl.
  - rewrite !orb_false_r. apply (prefix_of_lower sub "").
  - intros [Hp|Hc]%orb_true_iff.
    + apply (prefix_of_lower sub (String c s)) in Hp. simpl in Hp. by rewrite Hp.
    + rewrite (IH Hc). apply orb_true_r.
Qed.

(** A message that contains one of the keywords, in any letter case of the
    rest of the message, is classified as a network error. *)
Lemma network_keyword_classified e :
  TranslationService.is_network_error e = true →
  TranslationService.is_network_error (lower e) = true.
Proof.
  unfold TranslationService.is_network_error. cbn [existsb].
  rewrite !orb_false_r. intros H.
  repeat apply orb_true_iff in H as [H|H];
    apply contains_lower in H;
    match type of H with
    | contains (lower ?k) _ = _ => change (lower k) with k in H
    end;
    rewrite H, ?orb_true_r; done.
Qed.

Section Service.

Variable remote : nat → string → RemoteOutcome.

Lemma handler_state attempt e st :
  translation_cache (snd (TranslationService.handler attempt e st)) = translation_cache st
  ∧ calls (trace (snd (TranslationService.handler attempt e st))) = calls (trace st)
  ∧ ∀ v, fst (TranslationService.handler attempt e st) ≠ Leave (Return v).
Proof.
  unfold TranslationService.handler.
  repeat match goal with |- context [if ?b then _ else _] => destruct b end;
    cbn [fst snd log translation_cache trace]; rewrite ?calls_snoc; cbn [is_call];
    split_and!; (done || lia).
Qed.

Lemma attempt_body_calls attempt w key st :
  calls (trace (snd (TranslationService.attempt_body remote attempt w key st)))
  = S (calls (trace st)).
Proof.
  unfold TranslationService.attempt_body.
  set (st1 := if (0 <? attempt)%nat then log RetryDelay st else st).
  assert (calls (trace st1) = calls (trace st)) as H1.
  { unfold st1. destruct (0 <? attempt)%nat; [|done].
    cbn [log trace]. rewrite calls_snoc. cbn. lia. }
  assert (calls (trace (log (RemoteCall w "en" "sw") st1)) = S (calls (trace st))) as H2.
  { cbn [log trace]. rewrite calls_snoc, H1. cbn. lia. }
  destruct (remote (calls (trace st1)) w) as [[text|]|e].
  - destruct (negb (is_empty text)); [done|].
    by rewrite (proj1 (proj2 (handler_state _ _ _))).
  - by rewrite (proj1 (proj2 (handler_state _ _ _))).
  - by rewrite (proj1 (proj2 (handler_state _ _ _))).
Qed.

Lemma attempt_body_cache attempt w key st :
  match fst (TranslationService.attempt_body remote attempt w key st) with
  | Leave (Return v) =>
      translation_cache (snd (TranslationService.attempt_body remote attempt w key st))
      = <[key := v]> (translation_cache st)
  | _ =>
      translation_cache (snd (TranslationService.attempt_body remote attempt w key st))
      = translation_cache st
  end.
Proof.
  unfold TranslationService.attempt_body.
  set (st1 := if (0 <? attempt)%nat then log RetryDelay st else st).
  assert (translation_cache (log (RemoteCall w "en" "sw") st1) = translation_cache st) as H1.
  { unfold st1. by destruct (0 <? attempt)%nat. }
  assert (∀ e,
    match fst (TranslationService.handler attempt e (log (RemoteCall w "en" "sw") st1)) with
    | Leave (Return v) =>
        translation_cache (snd (TranslationService.handler attempt e (log (RemoteCall w "en" "sw") st1)))
        = <[key := v]> (translation_cache st)
    | _ =>
        translation_cache (snd (TranslationService.handler attempt e (log (RemoteCall w "en" "sw") st1)))
        = translation_cache st
    end) as Hh.
  { intros e. destruct (handler_state attempt e (log (RemoteCall w "en" "sw") st1)) as (Hc & _ & Hr).
    destruct (fst (TranslationService.handler attempt e (log (RemoteCall w "en" "sw") st1)))
      as [[v|m]|]; [by destruct (Hr v)|by rewrite Hc|by rewrite Hc]. }
  destruct (remote (calls (trace st1)) w) as [[text|]|e]; [|apply Hh..].
  destruct (negb (is_empty text)); [|apply Hh]. cbn [fst snd translation_cache log].
  unfold st1. by destruct (0 <? attempt)%nat.
Qed.

Lemma attempts_raise_cache todo w key st m st' :
  TranslationService.attempts remote todo w key st = (Raise m, st') →
  translation_cache st' = translation_cache st.
Proof.
  revert st. induction todo as [|attempt todo IH]; intros st; simpl.
  - by intros [= _ <-].
  - pose proof (attempt_body_cache attempt w key st) as Hc.
    destruct (TranslationService.attempt_body remote attempt w key st) as [[[v|m']|] st1];
      cbn [fst snd] in Hc.
    + done.
    + by intros [= _ <-].
    + intros H%IH. by rewrite H.
Qed.

Lemma attempts_return_cached todo w key st v st' :
  TranslationService.attempts remote todo w key st = (Return v, st') →
  translation_cache st' !! key = Some v.
Proof.
  revert st. induction todo as [|attempt todo IH]; intros st; simpl; [done|].
  pose proof (attempt_body_cache attempt w key st) as Hc.
  destruct (TranslationService.attempt_body remote attempt w key st) as [[[v'|m']|] st1];
    cbn [fst snd] in Hc.
  - intros [= <- <-]. rewrite Hc. apply lookup_insert_eq.
  - done.
  - apply IH.
Qed.

Lemma attempts_calls todo w key st :
  calls (trace (snd (TranslationService.attempts remote todo w key st)))
  ≤ calls (trace st) + length todo.
Proof.
  revert st. induction todo as [|attempt todo IH]; intros st; simpl; [lia|].
  pose proof (attempt_body_calls attempt w key st) as Hc.
  destruct (TranslationService.attempt_body remote attempt w key st) as [[r|] st1];
    cbn [fst snd] in *.
  - lia.
  - specialize (IH st1). lia.
Qed.

Lemma translate_cached w st v :
  translation_cache st !! TranslationService.cache_key_of w = Some v →
  TranslationService.translate_to_swahili remote w st = (Return v, st).
Proof. intros H. unfold TranslationService.translate_to_swahili. by rewrite H. Qed.

Lemma translate_raise_cache w st m st' :
  TranslationService.translate_to_swahili remote w st = (Raise m, st') →
  translation_cache st' = translation_cache st.
Proof.
  unfold TranslationService.translate_to_swahili.
  destruct (translation_cache st !! TranslationService.cache_key_of w); [done|].
  apply attempts_raise_cache.
Qed.

Lemma attempt_body_network attempt w key st e :
  let st1 := if (0 <? attempt)%nat then log RetryDelay st else st in
  remote (calls (trace st1)) w = Raised e →
  TranslationService.is_network_error (lower e) = true →
  TranslationService.attempt_body remote attempt w key st
  = (if (attempt =? Config.GOOGLE_TRANSLATE_MAX_RETRIES - 1)%nat
     then Leave (Raise (Config.MESSAGES !!! "network_error")) else Continue,
     log (RemoteCall w "en" "sw") st1).
Proof.
  intros st1 Hr He. unfold TranslationService.attempt_body. fold st1. rewrite Hr.
  unfold TranslationService.handler. rewrite He.
  by destruct (attempt =? Config.GOOGLE_TRANSLATE_MAX_RETRIES - 1)%nat.
Qed.

Lemma attempt_body_empty attempt w key st :
  let st1 := if (0 <? attempt)%nat then log RetryDelay st else st in
  remote (calls (trace st1)) w = Returned None
  ∨ remote (calls (trace st1)) w = Returned (Some "") →
  TranslationService.attempt_body remote attempt w key st
  = (Leave (Raise "Translation service error: Empty translation result"),
     log (RemoteCall w "en" "sw") st1).
Proof.
  intros st1 [Hr|Hr]; unfold TranslationService.attempt_body; fold st1; by rewrite Hr.
Qed.

End Service.

(** C3, as the specification states it, fails: the cache key is the word
    lower-cased, not normalized, so two words with the same normalization
    reach the remote translator twice; and a first call that succeeds on a
    retry has called it twice already. *)
Lemma cache_key_not_normalized :
  let remote := always_returns "rafiki mwema" in
  let st1 := snd (TranslationService.translate_to_swahili remote "good  friend" st0) in
  let st2 := snd (TranslationService.translate_to_swahili remote "good friend" st1) in
  let st1' := snd (TranslationService.translate_to_swahili fails_once "friend" st0) in
  let st2' := snd (TranslationService.translate_to_swahili fails_once "friend" st1') in
  WordMatcher._clean_word "good  friend" = WordMatcher._clean_word "good friend"
  ∧ calls (trace st1) = 1 ∧ calls (trace st2) = 2
  ∧ calls (trace st1') = 2 ∧ calls (trace st2') = 2.
Proof. vm_compute. done. Qed.

(** C3, amended: the cache key is ["en_to_sw_"] followed by the lower-cased
    word; a call that finds its key in the cache returns the cached value at
    once and leaves the service as it was; so after a call that succeeded, a
    call with a word equal to the first up to letter case returns the same
    value with no remote call, and the two calls together made at most
    MAX_RETRIES remote calls. *)
Theorem cached_translation_is_reused
    (remote : nat → string → RemoteOutcome) (w w' : string) (st st1 : Service)
    (v : string) :
  lower w = lower w' →
  TranslationService.translate_to_swahili remote w st = (Return v, st1) →
  TranslationService.cache_key_of w' = "en_to_sw_" +:+ lower w'
  ∧ translation_cache st1 !! TranslationService.cache_key_of w' = Some v
  ∧ TranslationService.translate_to_swahili remote w' st1 = (Return v, st1)
  ∧ calls (trace st1) ≤ calls (trace st) + Config.GOOGLE_TRANSLATE_MAX_RETRIES.
Proof.
  intros Hlow Hfirst.
  assert (TranslationService.cache_key_of w' = TranslationService.cache_key_of w) as Hkey.
  { unfold TranslationService.cache_key_of. by rewrite Hlow. }
  assert (translation_cache st1 !! TranslationService.cache_key_of w = Some v
          ∧ calls (trace st1) ≤ calls (trace st) + Config.GOOGLE_TRANSLATE_MAX_RETRIES)
    as [Hc Hn].
  { unfold TranslationService.translate_to_swahili in Hfirst.
    destruct (translation_cache st !! TranslationService.cache_key_of w) as [c|] eqn:E.
    - injection Hfirst as <- <-. split; [done|lia].
    - split; [by eapply attempts_return_cached|].
      pose proof (attempts_calls remote (seq 0 Config.GOOGLE_TRANSLATE_MAX_RETRIES)
                    w (TranslationService.cache_key_of w) st) as Hb.
      rewrite Hfirst, length_seq in Hb. exact Hb. }
  split_and!; [done|by rewrite Hkey| |done].
  apply translate_cached. by rewrite Hkey.
Qed.

Lemma cached_translation_witness :
  let remote := always_returns " Pundamilia " in
  let st1 := snd (TranslationService.translate_to_swahili remote "Zebra" st0) in
  TranslationService.translate_to_swahili remote "zEBRA" st1 = (Return "Pundamilia", st1).
Proof.
  cbv zeta.
  apply (cached_translation_is_reused (always_returns " Pundamilia ")
           "Zebra" "zEBRA" st0); reflexivity.
Defined.

(** C4: when the first MAX_RETRIES remote calls of a translation all raise an
    error classified as a network error, the service calls the translator
    exactly MAX_RETRIES = 3 times, waits before the second and the third call,
    and then raises the network-error message; the cache stays as it was. *)
Theorem transient_errors_exhaust_retries
    (remote : nat → string → RemoteOutcome) (w : string) (st : Service) :
  translation_cache st !! TranslationService.cache_key_of w = None →
  (∀ i, i < Config.GOOGLE_TRANSLATE_MAX_RETRIES →
        ∃ e, remote (calls (trace st) + i) w = Raised e
             ∧ TranslationService.is_network_error (lower e) = true) →
  ∃ st',
    TranslationService.translate_to_swahili remote w st
    = (Raise "Network timeout - please check your internet connection", st')
    ∧ trace st' = trace st ++ [RemoteCall w "en" "sw"; RetryDelay;
                               RemoteCall w "en" "sw"; RetryDelay;
                               RemoteCall w "en" "sw"]
    ∧ calls (trace st') = calls (trace st) + Config.GOOGLE_TRANSLATE_MAX_RETRIES
    ∧ translation_cache st' = translation_cache st.
Proof.
  intros Hmiss Hremote.
  destruct (Hremote 0) as (e0 & Hr0 & He0); [unfold Config.GOOGLE_TRANSLATE_MAX_RETRIES; lia|].
  destruct (Hremote 1) as (e1 & Hr1 & He1); [unfold Config.GOOGLE_TRANSLATE_MAX_RETRIES; lia|].
  destruct (Hremote 2) as (e2 & Hr2 & He2); [unfold Config.GOOGLE_TRANSLATE_MAX_RETRIES; lia|].
  set (c := RemoteCall w "en" "sw").
  set (sa := log c st).
  set (sb := log c (log RetryDelay sa)).
  set (sc := log c (log RetryDelay sb)).
  assert (calls (trace (log RetryDelay sa)) = calls (trace st) + 1) as Ha.
  { cbn [sa log trace]. rewrite !calls_snoc. cbn. lia. }
  assert (calls (trace (log RetryDelay sb)) = calls (trace st) + 2) as Hb.
  { cbn [sb sa log trace]. rewrite !calls_snoc. cbn. lia. }
  rewrite Nat.add_0_r in Hr0. rewrite <- Ha in Hr1. rewrite <- Hb in Hr2.
  exists sc. split_and!.
  - unfold TranslationService.translate_to_swahili. rewrite Hmiss.
    change (seq 0 Config.GOOGLE_TRANSLATE_MAX_RETRIES) with [0; 1; 2].
    cbn [TranslationService.attempts].
    rewrite (attempt_body_network remote 0 w _ st e0 Hr0 He0).
    change (0 =? Config.GOOGLE_TRANSLATE_MAX_RETRIES - 1)%nat with false. cbv iota.
    rewrite (attempt_body_network remote 1 w _ sa e1 Hr1 He1).
    change (1 =? Config.GOOGLE_TRANSLATE_MAX_RETRIES - 1)%nat with false. cbv iota.
    rewrite (attempt_body_network remote 2 w _ sb e2 Hr2 He2).
    change (2 =? Config.GOOGLE_TRANSLATE_MAX_RETRIES - 1)%nat with true. cbv iota.
    by rewrite messages_network_error.
  - cbn [sc sb sa log trace]. by rewrite <- !app_assoc.
  - cbn [sc sb sa log trace]. rewrite !calls_snoc. cbn.
    unfold Config.GOOGLE_TRANSLATE_MAX_RETRIES. lia.
  - done.
Qed.

Lemma transient_errors_witness :
  ∃ st',
    TranslationService.translate_to_swahili (always_raises "Connection Timeout") "zebra" st0
    = (Raise "Network timeout - please check your internet connection", st')
    ∧ trace st' = trace st0 ++ [RemoteCall "zebra" "en" "sw"; RetryDelay;
                                RemoteCall "zebra" "en" "sw"; RetryDelay;
                                RemoteCall "zebra" "en" "sw"]
    ∧ calls (trace st') = calls (trace st0) + Config.GOOGLE_TRANSLATE_MAX_RETRIES
    ∧ translation_cache st' = translation_cache st0.
Proof.
  apply (transient_errors_exhaust_retries (always_raises "Connection Timeout") "zebra" st0).
  - reflexivity.
  - intros i _. exists "Connection Timeout". split; reflexivity.
Defined.

(** C8: a remote call that returns no text or an empty text makes the attempt
    it belongs to raise the service error at once: no further attempt is
    made, whatever attempt it is, and the cache is left as it was; a
    translation that raises never changes the cache. *)
Theorem empty_result_fails_at_once
    (remote : nat → string → RemoteOutcome) (w : string) (st : Service) :
  (∀ attempt todo key,
     let st1 := if (0 <? attempt)%nat then log RetryDelay st else st in
     remote (calls (trace st1)) w = Returned None
     ∨ remote (calls (trace st1)) w = Returned (Some "") →
     TranslationService.attempts remote (attempt :: todo) w key st
     = (Raise "Translation service error: Empty translation result",
        log (RemoteCall w "en" "sw") st1))
  ∧ (translation_cache st !! TranslationService.cache_key_of w = None →
     remote (calls (trace st)) w = Returned None
     ∨ remote (calls (trace st)) w = Returned (Some "") →
     TranslationService.translate_to_swahili remote w st
     = (Raise "Translation service error: Empty translation result",
        mkService (translation_cache st) (trace st ++ [RemoteCall w "en" "sw"])))
  ∧ (∀ m st',
       TranslationService.translate_to_swahili remote w st = (Raise m, st') →
       translation_cache st' = translation_cache st).
Proof.
  split_and!.
  - intros attempt todo key st1 Hr. cbn [TranslationService.attempts].
    by rewrite (attempt_body_empty remote attempt w key st Hr).
  - intros Hmiss Hr. unfold TranslationService.translate_to_swahili. rewrite Hmiss.
    change (seq 0 Config.GOOGLE_TRANSLATE_MAX_RETRIES) with [0; 1; 2].
    cbn [TranslationService.attempts].
    by rewrite (attempt_body_empty remote 0 w _ st Hr).
  - intros m st'. apply translate_raise_cache.
Qed.

Lemma empty_result_witness :
  TranslationService.translate_to_swahili (always_returns "") "zebra" st0
  = (Raise "Translation service error: Empty translation result",
     mkService ∅ [RemoteCall "zebra" "en" "sw"]).
Proof.
  destruct (empty_result_fails_at_once (always_returns "") "zebra" st0) as (_ & H & _).
  apply H; [reflexivity|right; reflexivity].
Defined.

(** ** The handler *)

Lemma translate_word_invalid sort_values remote df request st :
  fst (TextProcessor.validate_input (english_word request)) = false →
  Main.translate_word sort_values remote df request st
  = (HTTPException 400 (snd (TextProcessor.validate_input (english_word request))), st).
Proof.
  intros H. unfold Main.translate_word.
  destruct (TextProcessor.validate_input (english_word request)) as [v m].
  cbn [fst snd] in *. by subst v.
Qed.

(** C10: [validate_input] accepts a text exactly when its trimmed form is not
    empty, has at most 100 characters and is made of ASCII letters,
    whitespace, hyphens and apostrophes only.  A text with a digit in it is
    rejected, and the handler answers it with a 400 before any lookup, though
    [_clean_word] would keep the digit. *)
Theorem validate_input_accepts_iff (text : string) :
  (fst (TextProcessor.validate_input text) = true
   ↔ strip text ≠ "" ∧ String.length (strip text) ≤ 100
     ∧ str_all TextProcessor.valid_char (strip text) = true)
  ∧ (fst (TextProcessor.validate_input text) = true
     → TextProcessor.validate_input text = (true, ""))
  ∧ (∀ d, isdigit_ascii d = true → str_in d text →
       fst (TextProcessor.validate_input text) = false
       ∧ str_in d (WordMatcher._clean_word text)
       ∧ ∀ sort_values remote df lang st,
           Main.translate_word sort_values remote df (mkRequest text lang) st
           = (HTTPException 400 (snd (TextProcessor.validate_input text)), st)).
Proof.
  split_and!.
  - apply validate_input_spec.
  - apply validate_input_message.
  - intros d Hd Hin.
    assert (fst (TextProcessor.validate_input text) = false) as Hrej.
    { destruct (fst (TextProcessor.validate_input text)) eqn:E; [|done].
      apply validate_input_spec in E as (_ & _ & Hall).
      destruct (isdigit_facts d Hd) as (_ & Hsp & _ & Hv).
      apply (str_all_in _ _ d) in Hall; [congruence|].
      by apply str_in_strip. }
    split_and!; [done|by apply digit_survives_clean|].
    intros. by apply translate_word_invalid.
Qed.

Lemma validate_input_witness :
  fst (TextProcessor.validate_input "r2d2") = false
  ∧ str_in "2"%char (WordMatcher._clean_word "r2d2").
Proof.
  destruct (validate_input_accepts_iff "r2d2") as (_ & _ & H).
  destruct (H "2"%char) as (H1 & H2 & _); [reflexivity|simpl; auto|].
  split; [exact H1|exact H2].
Defined.

(** C7: for a target language other than swahili the handler never reaches
    the remote translator: the service is left as it was.  When the language
    is a supported one and the valid word is found neither in the table nor
    in the fallback dictionary, the answer is a normal response with method
    [not_found], no success and the message that no translation was found. *)
Theorem not_found_without_remote
    (sort_values : list Row → list Row) (remote : nat → string → RemoteOutcome)
    (df : DataFrame) (request : TranslationRequest) (st : Service) :
  let word := strip (english_word request) in
  let lang := lower (target_language request) in
  lang ≠ "swahili" →
  snd (Main.translate_word sort_values remote df request st) = st
  ∧ ∀ name,
      Config.SUPPORTED_LANGUAGES !! lang = Some name →
      fst (TextProcessor.validate_input (english_word request)) = true →
      WordMatcher.search_in_csv sort_values word lang df = Value None →
      Config.get_fallback_translation word lang = None →
      fst (Main.translate_word sort_values remote df request st)
      = Responded {| english_of := word;
                     translation := "";
                     target_language_of := lang;
                     language_name := name;
                     method := "not_found";
                     success := false;
                     error := Some ("No " +:+ lang +:+ " translation found for '"
                                    +:+ word +:+ "'") |}.
Proof.
  intros word lang Hlang. unfold Main.translate_word. fold word lang.
  destruct (TextProcessor.validate_input (english_word request)) as [v m].
  cbn [fst snd]. rewrite (bool_decide_eq_false_2 _ Hlang). split.
  - destruct v; cbn [negb]; [|done].
    destruct (WordMatcher.search_in_csv sort_values word lang df) as [o|e]; [|done].
    repeat match goal with |- context [if ?b then _ else _] => destruct b end; done.
  - intros name Hname -> Hcsv Hfb. cbn [negb].
    rewrite Hcsv, Hfb. cbn [truthy fst].
    unfold Main.respond. by rewrite Hname.
Qed.

Lemma not_found_witness :
  Main.translate_word stable_sort_by_len (always_returns "pundamilia") df_demo
    (mkRequest " Zebra " "haya") st0
  = (Responded {| english_of := "Zebra";
                  translation := "";
                  target_language_of := "haya";
                  language_name := "Haya";
                  method := "not_found";
                  success := false;
                  error := Some "No haya translation found for 'Zebra'" |}, st0).
Proof.
  destruct (not_found_without_remote stable_sort_by_len (always_returns "pundamilia")
              df_demo (mkRequest " Zebra " "haya") st0) as [Hst Hres]; [discriminate|].
  specialize (Hres "Haya" eq_refl eq_refl eq_refl eq_refl).
  rewrite (surjective_pairing (Main.translate_word _ _ _ _ _)), Hst, Hres. reflexivity.
Defined.

(** * Further properties *)

(** ** More on the normalizer *)

Lemma str_all_filter p s : str_all p (str_filter p s) = true.
Proof.
  induction s as [|c s IH]; simpl; [done|].
  destruct (p c) eqn:E; simpl; [by rewrite E|done].
Qed.

Lemma str_all_filter_keeps q p s :
  str_all q s = true → str_all q (str_filter p s) = true.
Proof.
  induction s as [|c s IH]; simpl; [done|].
  intros [Hc Hs]%andb_true_iff. destruct (p c); simpl; [rewrite Hc|]; auto.
Qed.

Lemma str_all_impl (p q : ascii → bool) s :
  (∀ c, p c = true → q c = true) → str_all p s = true → str_all q s = true.
Proof.
  intros Hpq. induction s as [|c s IH]; simpl; [done|].
  intros [Hc Hs]%andb_true_iff. rewrite (Hpq c Hc). auto.
Qed.

Lemma str_all_lower_fixed s : str_all lower_fixed (lower s) = true.
Proof.
  induction s as [|c s IH]; simpl; [done|]. rewrite IH, andb_true_r.
  apply bool_decide_eq_true, lower_char_idem.
Qed.

Lemma lower_fixed_id s : str_all lower_fixed s = true → lower s = s.
Proof.
  induction s as [|c s IH]; simpl; [done|].
  intros [Hc%bool_decide_eq_true Hs]%andb_true_iff. by rewrite Hc, IH.
Qed.

Lemma clean_word_tokens word :
  WordMatcher._clean_word word
  = str_filter kept_char (join " " (lower <$> split word)).
Proof. by rewrite clean_word_unfold, split_lower, split_strip. Qed.

Lemma clean_word_fixed_on_kept x :
  str_all kept_char x = true →
  WordMatcher._clean_word (WordMatcher._clean_word x) = WordMatcher._clean_word x.
Proof.
  intros Hx.
  assert (WordMatcher._clean_word x = join " " (split (lower (strip x)))) as Hy.
  { rewrite clean_word_unfold. apply str_filter_all. by apply collapsed_kept. }
  rewrite Hy at 1 2. rewrite clean_word_unfold, collapsed_fixed.
  apply str_filter_all. by apply collapsed_kept.
Qed.

Lemma kept_lower_char_eq c : kept_char (lower_char c) = kept_char c.
Proof. by_chars c. Qed.

Lemma str_filter_app p s t : str_filter p (s +:+ t) = str_filter p s +:+ str_filter p t.
Proof.
  induction s as [|c s IH]; simpl; [done|]. rewrite IH. by destruct (p c).
Qed.

Lemma str_filter_join p l :
  p " "%char = true → str_filter p (join " " l) = join " " (str_filter p <$> l).
Proof.
  intros Hsp. induction l as [|w l IH]; [done|].
  destruct l as [|w2 l]; [done|].
  change (join " " (w :: w2 :: l)) with (w +:+ " " +:+ join " " (w2 :: l)).
  rewrite !str_filter_app, IH. simpl. by rewrite Hsp.
Qed.

(** Joining strings without whitespace and splitting the result gives back
    the non-empty ones. *)
Lemma split_join_pieces l :
  Forall (λ w, str_all nonspace w = true) l →
  split (join " " l) = List.filter (λ w, negb (is_empty w)) l.
Proof.
  induction 1 as [|w l Hw Hl IH]; [done|].
  destruct l as [|w2 l].
  - destruct w as [|c w]; [done|].
    simpl in Hw. apply andb_true_iff in Hw as [Hc Hw].
    unfold nonspace in Hc. apply negb_true_iff in Hc.
    cbn [join List.filter is_empty negb]. by apply split_token.
  - destruct w as [|c w].
    + transitivity (split (join " " (w2 :: l))); [reflexivity|].
      rewrite IH. reflexivity.
    + simpl in Hw. apply andb_true_iff in Hw as [Hc Hw].
      unfold nonspace in Hc. apply negb_true_iff in Hc.
      change (join " " (String c w :: w2 :: l))
        with (String c (w +:+ String " " (join " " (w2 :: l)))).
      rewrite split_token_app, IH by done. reflexivity.
Qed.

Lemma length_app_string s t :
  String.length (s +:+ t) = String.length s + String.length t.
Proof. induction s as [|c s IH]; simpl; [done|]. by rewrite IH. Qed.

Lemma length_join l :
  String.length (join " " l)
  = foldr (λ w n, String.length w + n) 0 l + pred (length l).
Proof.
  induction l as [|w l IH]; [done|].
  destruct l as [|w2 l]; [simpl; lia|].
  change (join " " (w :: w2 :: l)) with (w +:+ " " +:+ join " " (w2 :: l)).
  rewrite !length_app_string, IH. simpl. lia.
Qed.

Lemma total_length_pieces l :
  foldr (λ w n, String.length w + n) 0 (List.filter (λ w, negb (is_empty w)) l)
  = foldr (λ w n, String.length w + n) 0 l.
Proof.
  induction l as [|w l IH]; [done|]. simpl.
  destruct w as [|c w]; simpl; [done|]. by rewrite IH.
Qed.

Lemma filter_same_length {A} (p : A → bool) l :
  length (List.filter p l) = length l → List.filter p l = l.
Proof.
  induction l as [|a l IH]; [done|]. simpl.
  pose proof (filter_length_le p l) as Hle.
  destruct (p a); simpl; [intros [= H]; by rewrite IH|lia].
Qed.

(** Dropping the empty pieces of a list changes what [join] makes of it,
    unless there is none to drop or the list is one empty piece. *)
Lemma join_pieces_same l :
  let kept := List.filter (λ w, negb (is_empty w)) l in
  join " " kept = join " " l ↔ kept = l ∨ l = [""].
Proof.
  intros kept. split.
  - intros Heq. apply (f_equal String.length) in Heq.
    rewrite !length_join in Heq. unfold kept in Heq.
    rewrite total_length_pieces in Heq. fold kept in Heq.
    pose proof (filter_length_le (λ w, negb (is_empty w)) l) as Hle. fold kept in Hle.
    destruct (decide (length kept = length l)) as [Hlen|Hlen].
    + left. by apply filter_same_length.
    + right. assert (length kept = 0 ∧ length l = 1) as [Hk Hl] by lia.
      destruct l as [|w [|? ?]]; try done.
      unfold kept in Hk. simpl in Hk. by destruct w.
  - intros [->| ->]; done.
Qed.

Lemma filter_lower_empty t :
  is_empty (str_filter kept_char (lower t)) = wholly_removed t.
Proof.
  unfold wholly_removed. induction t as [|c t IH]; [done|]. simpl.
  rewrite kept_lower_char_eq. destruct (kept_char c); simpl; [done|exact IH].
Qed.

(** The normalizer, token by token, and what a second pass makes of its
    result. *)
Lemma clean_word_pieces x :
  let pieces := (λ t, str_filter kept_char (lower t)) <$> split x in
  WordMatcher._clean_word x = join " " pieces
  ∧ WordMatcher._clean_word (WordMatcher._clean_word x)
    = join " " (List.filter (λ w, negb (is_empty w)) pieces).
Proof.
  intros pieces.
  assert (WordMatcher._clean_word x = join " " pieces) as Hone.
  { rewrite clean_word_tokens, str_filter_join by done.
    unfold pieces. by rewrite <- list_fmap_compose. }
  split; [done|].
  assert (Forall (λ w, str_all nonspace w = true ∧ str_all lower_fixed w = true
                       ∧ str_all kept_char w = true) pieces) as Hpieces.
  { unfold pieces. apply Forall_fmap, Forall_forall. intros t Ht.
    pose proof (split_tokens x) as Htok. rewrite Forall_forall in Htok.
    assert (str_all nonspace (lower t) = true) as Hns.
    { destruct (Htok t Ht) as [_ Hall]. apply str_all_lower; [|done].
      intros c. unfold nonspace. by rewrite isspace_lower_char. }
    cbn. split_and!.
    - by apply str_all_filter_keeps.
    - apply str_all_filter_keeps, str_all_lower_fixed.
    - apply str_all_filter. }
  rewrite clean_word_tokens, Hone, split_join_pieces
    by (eapply Forall_impl; [exact Hpieces|]; by intros w (? & _)).
  assert (Forall (λ w, str_all lower_fixed w = true ∧ str_all kept_char w = true)
            (List.filter (λ w, negb (is_empty w)) pieces)) as Hkept.
  { apply Forall_forall. intros w Hw.
    apply list_elem_of_In, filter_In in Hw as [Hw%list_elem_of_In _].
    rewrite Forall_forall in Hpieces. by destruct (Hpieces w Hw) as (_ & ? & ?). }
  rewrite str_filter_join by done. f_equal.
  induction Hkept as [|w l [Hlow Hk] _ IH]; [done|].
  csimpl. by rewrite (lower_fixed_id w Hlow), (str_filter_all _ w Hk), IH.
Qed.

Lemma pieces_none_empty (l : list string) :
  let pieces := (λ t, str_filter kept_char (lower t)) <$> l in
  List.filter (λ w, negb (is_empty w)) pieces = pieces
  ↔ forallb (λ t, negb (wholly_removed t)) l = true.
Proof.
  induction l as [|t l IH]; [done|]. cbn zeta in *. csimpl.
  rewrite filter_lower_empty.
  destruct (wholly_removed t); cbn [negb andb].
  - split; [|done]. intros Heq. apply (f_equal length) in Heq.
    pose proof (filter_length_le (λ w, negb (is_empty w))
                  ((λ t, str_filter kept_char (lower t)) <$> l)).
    simpl in Heq. lia.
  - split.
    + intros [= H]. by apply IH.
    + intros H. f_equal. by apply IH.
Qed.

(** C6, amended: the normalizer lower-cases every whitespace-separated
    token of its input, removes from it the characters the filter does not
    keep and joins the results by single spaces; the filter keeps word
    characters (letters, digits and the underscore), whitespace, the hyphen
    and the apostrophe.  It is idempotent on exactly the inputs of which no
    token is made wholly of removed characters, and on those of a single
    token. *)
Theorem clean_word_idempotent_iff (x : string) :
  WordMatcher._clean_word x
  = join " " ((λ t, str_filter kept_char (lower t)) <$> split x)
  ∧ (WordMatcher._clean_word (WordMatcher._clean_word x) = WordMatcher._clean_word x
     ↔ forallb (λ t, negb (wholly_removed t)) (split x) = true
       ∨ length (split x) = 1).
Proof.
  destruct (clean_word_pieces x) as [Hone Htwo]. split; [exact Hone|].
  rewrite Htwo, Hone.
  rewrite join_pieces_same. clear Hone Htwo.
  pose proof (pieces_none_empty (split x)) as Hall. cbn zeta in Hall.
  split.
  - intros [H|H]; [left; by apply Hall|right].
    apply (f_equal length) in H. by rewrite length_fmap in H.
  - intros [H|H]; [left; by apply Hall|].
    destruct (split x) as [|t [|? ?]]; try done. csimpl.
    destruct (str_filter kept_char (lower t)) eqn:E.
    + by right.
    + by left.
Qed.

Lemma clean_word_idempotent_witness :
  WordMatcher._clean_word "  It's   o.k.! " = "it's ok"
  ∧ WordMatcher._clean_word (WordMatcher._clean_word "  It's   o.k.! ")
    = WordMatcher._clean_word "  It's   o.k.! ".
Proof.
  split; [reflexivity|].
  apply (proj2 (proj2 (clean_word_idempotent_iff "  It's   o.k.! "))). left. reflexivity.
Defined.

(** X1: a second pass of the normalizer may still change the word, a third
    one never does. *)
Theorem clean_word_stable_after_two_passes (word : string) :
  let once := WordMatcher._clean_word word in
  WordMatcher._clean_word (WordMatcher._clean_word once) = WordMatcher._clean_word once.
Proof.
  intros once. apply clean_word_fixed_on_kept. unfold once.
  rewrite clean_word_unfold. apply str_all_filter.
Qed.

(** X2: the normalized word holds only word characters, whitespace, hyphens
    and apostrophes, and lower-casing it changes nothing. *)
Theorem clean_word_output (word : string) :
  str_all kept_char (WordMatcher._clean_word word) = true
  ∧ lower (WordMatcher._clean_word word) = WordMatcher._clean_word word.
Proof.
  split.
  - rewrite clean_word_unfold. apply str_all_filter.
  - apply lower_fixed_id. rewrite clean_word_unfold.
    apply str_all_filter_keeps, str_all_join; [done|].
    apply str_all_split, str_all_lower_fixed.
Qed.

(** X3: the normalized word depends on the input only through its tokens
    taken lower-case: letter case and the amount and kind of whitespace
    between and around the tokens do not matter. *)
Theorem clean_word_by_tokens (word1 word2 : string) :
  lower <$> split word1 = lower <$> split word2 →
  WordMatcher._clean_word word1 = WordMatcher._clean_word word2.
Proof. intros H. by rewrite !clean_word_tokens, H. Qed.

Lemma clean_word_by_tokens_witness :
  WordMatcher._clean_word "  Thank   YOU " = WordMatcher._clean_word "thank you".
Proof. apply clean_word_by_tokens. reflexivity. Defined.

Lemma valid_lower_char c :
  TextProcessor.valid_char c = true → TextProcessor.valid_char (lower_char c) = true.
Proof. by_chars c. Qed.

Lemma split_nil_spaces s : split s = [] → str_all isspace s = true.
Proof.
  induction s as [|c s IH]; simpl; [done|].
  destruct (isspace c); [done|].
  destruct (starts_token s); [by destruct (split s)|done].
Qed.

Lemma lstrip_spaces s : str_all isspace s = true → lstrip s = "".
Proof.
  induction s as [|c s IH]; simpl; [done|].
  intros [Hc Hs]%andb_true_iff. rewrite Hc. auto.
Qed.

Lemma split_nonempty s : strip s ≠ "" → split s ≠ [].
Proof.
  intros Hs Hnil. apply Hs. unfold strip.
  by rewrite (lstrip_spaces s (split_nil_spaces s Hnil)).
Qed.

Lemma join_nonempty sep l : Forall token l → l ≠ [] → join sep l ≠ "".
Proof.
  intros Hl Hne. destruct l as [|w l]; [done|].
  inversion Hl as [|? ? [Hw _] _]; subst. destruct w as [|c w]; [done|].
  by destruct l.
Qed.

(** X4: on a text that [validate_input] accepts the normalizer only trims,
    lower-cases and collapses whitespace: the result is not empty, is made of
    the characters the validation allows, and is a fixed point of the
    normalizer. *)
Theorem accepted_input_normalizes_cleanly (text : string) :
  fst (TextProcessor.validate_input text) = true →
  WordMatcher._clean_word text = join " " (split (lower (strip text)))
  ∧ WordMatcher._clean_word text ≠ ""
  ∧ str_all TextProcessor.valid_char (WordMatcher._clean_word text) = true
  ∧ WordMatcher._clean_word (WordMatcher._clean_word text) = WordMatcher._clean_word text.
Proof.
  intros (Hne & _ & Hvalid)%validate_input_spec.
  assert (str_all TextProcessor.valid_char (join " " (split (lower (strip text)))) = true)
    as Hv.
  { apply str_all_join; [done|].
    apply str_all_split, str_all_lower; [apply valid_lower_char|done]. }
  assert (WordMatcher._clean_word text = join " " (split (lower (strip text)))) as Hy.
  { rewrite clean_word_unfold. apply str_filter_all.
    eapply str_all_impl; [apply valid_char_kept|done]. }
  split_and!; [done| | |].
  - rewrite Hy. apply join_nonempty; [apply split_tokens|].
    rewrite split_lower, split_strip. intros Hnil%fmap_nil_inv.
    by apply (split_nonempty text).
  - by rewrite Hy.
  - rewrite Hy at 1 2. rewrite clean_word_unfold, collapsed_fixed.
    apply str_filter_all. eapply str_all_impl; [apply valid_char_kept|done].
Qed.

Lemma accepted_input_witness :
  WordMatcher._clean_word " It's  OK " = "it's ok"
  ∧ WordMatcher._clean_word (WordMatcher._clean_word " It's  OK ")
    = WordMatcher._clean_word " It's  OK ".
Proof.
  destruct (accepted_input_normalizes_cleanly " It's  OK ") as (H1 & _ & _ & H4);
    [reflexivity|].
  split; [rewrite H1; reflexivity|exact H4].
Defined.

(** ** More on the cascade *)

Lemma lower_app s t : lower (s +:+ t) = lower s +:+ lower t.
Proof. induction s as [|c s IH]; simpl; [done|]. by rewrite IH. Qed.

Lemma lower_join l : lower (join " " l) = join " " (lower <$> l).
Proof.
  induction l as [|w l IH]; [done|]. destruct l as [|w2 l]; [done|].
  change (join " " (w :: w2 :: l)) with (w +:+ " " +:+ join " " (w2 :: l)).
  rewrite !lower_app, IH. done.
Qed.

Lemma token_lower w : token w → token (lower w).
Proof.
  intros [Hne Hall]. split; [by destruct w|].
  clear Hne. induction w as [|c w IH]; simpl in *; [done|].
  apply andb_true_iff in Hall as [Hc Hw]. unfold nonspace in *.
  rewrite isspace_lower_char, Hc. auto.
Qed.

Lemma join_tokens_head l :
  Forall token l → l ≠ [] → starts_token (join " " l) = true.
Proof.
  intros Hl Hne. destruct l as [|w l]; [done|].
  inversion Hl as [|? ? Hw _]; subst.
  apply token_inv in Hw as (c & w' & -> & Hc & _).
  destruct l; simpl; by rewrite Hc.
Qed.

Lemma starts_token_not_space s : starts_token s = true → starts_space s = false.
Proof. destruct s; simpl; [done|]. by intros ->%negb_true_iff. Qed.

Lemma rstrip_nonspace_app w s :
  str_all nonspace w = true → rstrip (w +:+ s) = w +:+ rstrip s.
Proof.
  induction w as [|c w IH]; simpl; [done|].
  intros [Hc%negb_true_iff Hw]%andb_true_iff. by rewrite Hc, IH.
Qed.

Lemma collapse_nonspace_app w s :
  str_all nonspace w = true → collapse_ws (w +:+ s) = w +:+ collapse_ws s.
Proof.
  induction w as [|c w IH]; simpl; [done|].
  intros [Hc%negb_true_iff Hw]%andb_true_iff. by rewrite Hc, IH.
Qed.

Lemma rstrip_join_tokens l : Forall token l → rstrip (join " " l) = join " " l.
Proof.
  induction l as [|w l IH]; [done|]. intros Hl.
  inversion Hl as [|? ? [Hne Hw] Hrest]; subst. destruct l as [|w2 l].
  - simpl. clear Hne Hl IH Hrest. induction w as [|c w IH]; simpl in *; [done|].
    apply andb_true_iff in Hw as [Hc%negb_true_iff Hw]. by rewrite Hc, IH.
  - change (join " " (w :: w2 :: l)) with (w +:+ String " " (join " " (w2 :: l))).
    rewrite rstrip_nonspace_app by done. cbn [rstrip]. rewrite (IH Hrest).
    pose proof (join_tokens_head (w2 :: l) Hrest ltac:(done)) as Hh.
    destruct (join " " (w2 :: l)); [done|]. done.
Qed.

Lemma collapse_join_tokens l : Forall token l → collapse_ws (join " " l) = join " " l.
Proof.
  induction l as [|w l IH]; [done|]. intros Hl.
  inversion Hl as [|? ? [Hne Hw] Hrest]; subst. destruct l as [|w2 l].
  - simpl. clear Hne Hl IH Hrest. induction w as [|c w IH]; simpl in *; [done|].
    apply andb_true_iff in Hw as [Hc%negb_true_iff Hw]. by rewrite Hc, IH.
  - change (join " " (w :: w2 :: l)) with (w +:+ String " " (join " " (w2 :: l))).
    rewrite collapse_nonspace_app by done. cbn [collapse_ws].
    change (isspace " ") with true. cbv iota.
    rewrite (starts_token_not_space _ (join_tokens_head (w2 :: l) Hrest ltac:(done))).
    by rewrite (IH Hrest).
Qed.

Lemma strip_join_tokens l : Forall token l → strip (join " " l) = join " " l.
Proof.
  intros Hl. unfold strip. destruct l as [|w l]; [done|].
  rewrite lstrip_token by by apply join_tokens_head.
  by apply rstrip_join_tokens.
Qed.

Lemma ws_normal_entry e :
  ws_normal e → collapse_ws (strip (lower e)) = strip (lower e).
Proof.
  unfold ws_normal. intros <-. rewrite lower_join.
  assert (Forall token (lower <$> split e)) as Ht.
  { apply Forall_fmap. eapply Forall_impl; [apply split_tokens|].
    intros w. apply token_lower. }
  rewrite strip_join_tokens by done. by apply collapse_join_tokens.
Qed.

Lemma case_tier_on_normal (word lang : string) (df : DataFrame) :
  Forall (λ r, ws_normal (english r)) (rows df) →
  WordMatcher._case_insensitive_match word lang df
  = WordMatcher._exact_match word lang df.
Proof.
  intros Hdf. unfold WordMatcher._case_insensitive_match, WordMatcher._exact_match.
  f_equal. unfold select. f_equal. apply List.filter_ext_in. intros r Hr.
  rewrite Forall_forall in Hdf. rewrite ws_normal_entry; [done|].
  by apply Hdf, list_elem_of_In.
Qed.

(** X5: on a table whose entries have their whitespace normalized (single
    spaces between tokens, none around them) the case-insensitive tier selects
    the rows of the exact tier and returns what it returns. *)
Theorem case_tier_equals_exact_tier (word lang : string) (df : DataFrame) :
  Forall (λ r, ws_normal (english r)) (rows df) →
  WordMatcher._case_insensitive_match word lang df
  = WordMatcher._exact_match word lang df.
Proof. apply case_tier_on_normal. Qed.

Lemma case_tier_witness :
  WordMatcher._case_insensitive_match "good morning" "swahili" df_demo
  = WordMatcher._exact_match "good morning" "swahili" df_demo.
Proof. apply case_tier_equals_exact_tier. repeat constructor. Defined.

Lemma drop_duplicates_keeps r l : r ∈ l → r ∈ drop_duplicates l.
Proof.
  induction l as [|a l IH]; [done|]. simpl.
  intros [->|Hr]%elem_of_cons; [apply list_elem_of_here|].
  destruct (decide (r = a)) as [->|Hne]; [apply list_elem_of_here|].
  apply list_elem_of_further, list_elem_of_In, filter_In.
  split; [by apply list_elem_of_In, IH|by apply bool_decide_eq_true].
Qed.

Lemma insert_by_len_perm r l : insert_by_len r l ≡ₚ r :: l.
Proof.
  induction l as [|a l IH]; simpl; [done|].
  destruct (String.length (english r) <=? String.length (english a))%nat; [done|].
  rewrite IH. apply perm_swap.
Qed.

Lemma insert_by_len_sorted r l :
  StronglySorted len_le l → StronglySorted len_le (insert_by_len r l).
Proof.
  induction 1 as [|a l Hl IH Ha]; simpl; [repeat constructor|].
  destruct (Nat.leb_spec (String.length (english r)) (String.length (english a)))
    as [Hle|Hgt].
  - constructor; [by constructor|]. constructor; [done|].
    eapply Forall_impl; [exact Ha|]. intros b Hb. unfold len_le in *. lia.
  - constructor; [done|]. rewrite insert_by_len_perm.
    constructor; [unfold len_le; lia|done].
Qed.

Lemma stable_sort_sorts : sorts_by_len stable_sort_by_len.
Proof.
  intros l. unfold stable_sort_by_len. induction l as [|r l [IHp IHs]]; simpl.
  - split; [done|constructor].
  - split; [by rewrite insert_by_len_perm, IHp|by apply insert_by_len_sorted].
Qed.

Lemma partial_match_by_length
    (sort_values : list Row → list Row) (word lang : string) (df : DataFrame) :
  sorts_by_len sort_values →
  match WordMatcher._partial_match sort_values word lang df with
  | Some t =>
      ∃ r s,
        r ∈ rows df ∧ contains word (lower (english r)) = true
        ∧ cell_at (columns df) lang r = Some s ∧ strip s ≠ "" ∧ t = strip s
        ∧ ∀ r', r' ∈ rows df → contains word (lower (english r')) = true →
                WordMatcher.valid_cell (columns df) lang r' = true →
                String.length (english r) ≤ String.length (english r')
  | None =>
      ∀ r, r ∈ rows df → contains word (lower (english r)) = true →
           WordMatcher.valid_cell (columns df) lang r = false
  end.
Proof.
  intros Hsort. unfold WordMatcher._partial_match.
  rewrite partial_match_candidates. cbn [select rows].
  remember (drop_duplicates
              (List.filter (λ r, contains word (lower (english r))) (rows df)))
    as cands eqn:Hcd.
  assert (∀ r, r ∈ cands ↔ r ∈ rows df ∧ contains word (lower (english r)) = true)
    as Hcands.
  { intros r. rewrite Hcd. split.
    - intros Hr%drop_duplicates_elem.
      apply list_elem_of_In, filter_In in Hr as [Hr Hcont].
      split; [by apply list_elem_of_In|done].
    - intros [Hr Hc]. apply drop_duplicates_keeps, list_elem_of_In, filter_In.
      split; [by apply list_elem_of_In|done]. }
  clear Hcd. unfold empty_frame at 1. cbn [rows].
  destruct cands as [|c0 cands']; cbn [negb].
  { intros r Hr Hcont. exfalso. apply (elem_of_nil r), Hcands. done. }
  set (cands := c0 :: cands') in *.
  destruct (Hsort cands) as [Hperm Hsorted].
  set (m := mkFrame (columns df) (sort_values cands)).
  destruct (WordMatcher._get_best_translation m lang) as [t|] eqn:Hbest.
  - apply get_best_Some in Hbest
      as (pre & r & post & s & Hrows & Hpre & Hcell & Hs & ->).
    cbn [m rows columns] in *.
    assert (r ∈ cands) as Hr.
    { rewrite <- Hperm, Hrows. apply elem_of_app. right. apply list_elem_of_here. }
    apply Hcands in Hr as [Hr Hcont].
    exists r, s. split_and!; try done.
    intros r' Hr' Hcont' Hv'.
    assert (r' ∈ pre ++ r :: post) as Hin.
    { rewrite <- Hrows, Hperm. by apply Hcands. }
    rewrite Hrows in Hsorted.
    apply StronglySorted_app in Hsorted as (_ & _ & Hsorted).
    apply StronglySorted_cons in Hsorted as [Hpost _].
    apply elem_of_app in Hin as [Hin|Hin].
    + rewrite Forall_forall in Hpre. rewrite (Hpre r' Hin) in Hv'. done.
    + apply elem_of_cons in Hin as [->|Hin]; [done|].
      rewrite Forall_forall in Hpost. by apply Hpost.
  - apply get_best_None in Hbest. cbn [m rows columns] in Hbest.
    intros r Hr Hcont. rewrite Forall_forall in Hbest. apply Hbest.
    rewrite Hperm. by apply Hcands.
Qed.

(** X6: with a sort that orders the rows by the length of their entry, the
    partial tier returns the trimmed translation of a row whose entry,
    lower-cased, contains the query, has a non-blank translation, and is no
    longer than any other such row; it returns nothing exactly when no row
    that contains the query has a non-blank translation. *)
Theorem partial_match_shortest_entry
    (sort_values : list Row → list Row) (word lang : string) (df : DataFrame) :
  sorts_by_len sort_values →
  match WordMatcher._partial_match sort_values word lang df with
  | Some t =>
      ∃ r s,
        r ∈ rows df ∧ contains word (lower (english r)) = true
        ∧ cell_at (columns df) lang r = Some s ∧ strip s ≠ "" ∧ t = strip s
        ∧ ∀ r', r' ∈ rows df → contains word (lower (english r')) = true →
                WordMatcher.valid_cell (columns df) lang r' = true →
                String.length (english r) ≤ String.length (english r')
  | None =>
      ∀ r, r ∈ rows df → contains word (lower (english r)) = true →
           WordMatcher.valid_cell (columns df) lang r = false
  end.
Proof. apply partial_match_by_length. Qed.

Lemma partial_match_shortest_witness :
  ∃ r s,
    r ∈ rows df_demo ∧ contains "oo" (lower (english r)) = true
    ∧ cell_at (columns df_demo) "swahili" r = Some s ∧ strip s ≠ ""
    ∧ "kitabu" = strip s
    ∧ ∀ r', r' ∈ rows df_demo → contains "oo" (lower (english r')) = true →
            WordMatcher.valid_cell (columns df_demo) "swahili" r' = true →
            String.length (english r) ≤ String.length (english r').
Proof.
  exact (partial_match_shortest_entry stable_sort_by_len "oo" "swahili" df_demo
           stable_sort_sorts).
Defined.

Lemma contains_empty s : contains "" s = true.
Proof. by destruct s. Qed.




(** X7: a query that normalizes to the empty string (one made of
    punctuation only, say) still gets a translation from any table that has
    one for the language: the empty string is contained in every entry, so
    every row is a candidate of the partial tier. *)
Theorem blank_query_gets_a_translation
    (sort_values : list Row → list Row) (english_word lang : string) (df : DataFrame)
    (r : Row) :
  sorts_by_len sort_values →
  WordMatcher._clean_word english_word = "" →
  r ∈ rows df → WordMatcher.valid_cell (columns df) lang r = true →
  ∃ t, WordMatcher.search_in_csv sort_values english_word lang df = Value (Some t).
Proof.
  intros Hsort Hclean Hr Hv.
  unfold WordMatcher.search_in_csv.
  assert (empty_frame df = false) as Hne.
  { unfold empty_frame. destruct (rows df); [by apply elem_of_nil in Hr|done]. }
  apply valid_cell_spec in Hv as (s & Hcell & Hs).
  rewrite Hne, (cell_at_has_column df lang r s Hcell). cbn [orb negb].
  rewrite Hclean.
  destruct (truthy (WordMatcher._exact_match "" lang df)) eqn:He.
  { destruct (WordMatcher._exact_match "" lang df) as [t|]; [by exists t|done]. }
  destruct (truthy (WordMatcher._case_insensitive_match "" lang df)) eqn:Hc.
  { destruct (WordMatcher._case_insensitive_match "" lang df) as [t|];
      [by exists t|done]. }
  pose proof (partial_match_by_length sort_values "" lang df Hsort) as Hp.
  pose proof (partial_match_clean sort_values "" lang df) as Hpc.
  destruct (WordMatcher._partial_match sort_values "" lang df) as [t|].
  - destruct (Hpc t eq_refl) as [Ht _]. cbn [truthy].
    apply is_empty_false in Ht. rewrite Ht. cbn [negb]. by exists t.
  - exfalso. specialize (Hp r Hr (contains_empty _)).
    assert (WordMatcher.valid_cell (columns df) lang r = true)
      by (apply valid_cell_spec; eauto). congruence.
Qed.

Lemma blank_query_witness :
  ∃ t, WordMatcher.search_in_csv stable_sort_by_len "?!" "swahili" df_demo
       = Value (Some t).
Proof.
  apply (blank_query_gets_a_translation stable_sort_by_len "?!" "swahili" df_demo
           (mkRow "book" [Some "kitabu"; None])).
  - apply stable_sort_sorts.
  - reflexivity.
  - apply list_elem_of_here.
  - reflexivity.
Defined.




(** ** When the fuzzy tier raises *)








(** X9: the endpoints agree on the size of the table: no language is
    reported with more entries than [health_check] reports rows, and a table
    reported as not loaded has no entries for any language. *)
Theorem entries_count_bounded (df : DataFrame) (info : Main.LanguageInfo) :
  info ∈ Main.get_available_languages df →
  Main.info_entries_count info ≤ Main.csv_entries (Main.health_check df)
  ∧ (Main.csv_loaded (Main.health_check df) = false → Main.info_entries_count info = 0).
Proof.
  intros Hin. unfold Main.get_available_languages in Hin.
  apply list_elem_of_fmap in Hin as ([code name] & -> & _).
  cbn [Main.info_entries_count Main.health_check Main.csv_entries Main.csv_loaded fst].
  unfold Main.entries_count. destruct (empty_frame df); cbn [negb andb]; [done|].
  split; [|done]. destruct (has_column df code); [|lia].
  apply filter_length_le.
Qed.

Lemma entries_count_witness :
  3 ≤ Main.csv_entries (Main.health_check df_demo).
Proof.
  apply (entries_count_bounded df_demo (Main.mkLanguageInfo "swahili" "Swahili" true 3)).
  apply list_elem_of_here.
Defined.

(** ** More on the remote translation service *)

Section ServiceMore.

Variable remote : nat → string → RemoteOutcome.

Lemma handler_cases attempt e st :
  match fst (TranslationService.handler attempt e st) with
  | Leave (Return _) => False
  | Leave (Raise m) => classified_failure m
  | Continue => attempt ≠ Config.GOOGLE_TRANSLATE_MAX_RETRIES - 1 ∧ retriable e = true
  end.
Proof.
  unfold TranslationService.handler, retriable, classified_failure.
  destruct (TranslationService.is_network_error (lower e)).
  - destruct (Nat.eqb_spec attempt (Config.GOOGLE_TRANSLATE_MAX_RETRIES - 1));
      cbn [fst]; [by left|done].
  - destruct (TranslationService.is_rate_limit (lower e)).
    + destruct (Nat.eqb_spec attempt (Config.GOOGLE_TRANSLATE_MAX_RETRIES - 1));
        cbn [fst]; [right; by left|done].
    + cbn [fst]. right; right. by exists e.
Qed.

Lemma attempt_body_cases attempt w key st :
  match fst (TranslationService.attempt_body remote attempt w key st) with
  | Leave (Return _) => True
  | Leave (Raise m) => classified_failure m
  | Continue => attempt ≠ Config.GOOGLE_TRANSLATE_MAX_RETRIES - 1
  end.
Proof.
  unfold TranslationService.attempt_body.
  match goal with
  | |- context [TranslationService.handler _ _ ?s] => set (st2 := s)
  end.
  assert (∀ e, match fst (TranslationService.handler attempt e st2) with
               | Leave (Return _) => True
               | Leave (Raise m) => classified_failure m
               | Continue => attempt ≠ Config.GOOGLE_TRANSLATE_MAX_RETRIES - 1
               end) as Hh.
  { intros e. pose proof (handler_cases attempt e st2) as H.
    destruct (fst (TranslationService.handler attempt e st2)) as [[v|m]|];
      [done|done|by destruct H]. }
  match goal with |- context [match ?r with Returned _ => _ | Raised _ => _ end] =>
    destruct r as [[text|]|e] end; [|apply Hh..].
  destruct (negb (is_empty text)); [done|apply Hh].
Qed.

Lemma attempts_cases todo w key st :
  let res := TranslationService.attempts remote todo w key st in
  calls (trace st) ≤ calls (trace (snd res)) ≤ calls (trace st) + length todo
  ∧ match fst res with
    | Return v =>
        translation_cache (snd res) = <[key := v]> (translation_cache st)
        ∧ calls (trace st) < calls (trace (snd res))
    | Raise m =>
        translation_cache (snd res) = translation_cache st
        ∧ ((classified_failure m ∧ calls (trace st) < calls (trace (snd res)))
           ∨ (m = Config.MESSAGES !!! "translation_failed"
              ∧ Config.GOOGLE_TRANSLATE_MAX_RETRIES - 1 ∉ todo))
    end.
Proof.
  revert st. induction todo as [|attempt todo IH]; intros st; cbn zeta.
  - cbn [TranslationService.attempts fst snd length]. split; [lia|].
    split; [done|]. right. split; [done|apply not_elem_of_nil].
  - cbn [TranslationService.attempts length].
    pose proof (attempt_body_calls remote attempt w key st) as Hn.
    pose proof (attempt_body_cache remote attempt w key st) as Hc.
    pose proof (attempt_body_cases attempt w key st) as Hk.
    destruct (TranslationService.attempt_body remote attempt w key st) as [[[v|m]|] st1];
      cbn [fst snd] in *.
    + split; [lia|]. split; [done|lia].
    + split; [lia|]. split; [done|]. left. split; [done|lia].
    + specialize (IH st1). cbn zeta in IH. destruct IH as [Hb Hres].
      split; [lia|].
      destruct (fst (TranslationService.attempts remote todo w key st1)) as [v|m].
      * destruct Hres as [-> ?]. rewrite Hc. split; [done|lia].
      * destruct Hres as [-> Hm]. split; [done|].
        destruct Hm as [[? ?]|[-> Hnot]]; [left; split; [done|lia]|].
        right. split; [done|]. apply not_elem_of_cons. done.
Qed.

Lemma attempt_body_retry attempt w key st e :
  let st1 := if (0 <? attempt)%nat then log RetryDelay st else st in
  remote (calls (trace st1)) w = Raised e → retriable e = true →
  attempt ≠ Config.GOOGLE_TRANSLATE_MAX_RETRIES - 1 →
  fst (TranslationService.attempt_body remote attempt w key st) = Continue.
Proof.
  intros st1 Hr He Hlast. unfold TranslationService.attempt_body. fold st1.
  rewrite Hr. unfold TranslationService.handler. unfold retriable in He.
  apply Nat.eqb_neq in Hlast. rewrite Hlast.
  destruct (TranslationService.is_network_error (lower e)); [done|].
  cbn [orb] in He. by rewrite He.
Qed.

Lemma attempt_body_text attempt w key st text :
  let st1 := if (0 <? attempt)%nat then log RetryDelay st else st in
  remote (calls (trace st1)) w = Returned (Some text) → text ≠ "" →
  fst (TranslationService.attempt_body remote attempt w key st)
  = Leave (Return (strip text)).
Proof.
  intros st1 Hr Hne. unfold TranslationService.attempt_body. fold st1.
  rewrite Hr. apply is_empty_false in Hne. by rewrite Hne.
Qed.

Lemma calls_retry_delay attempt st :
  calls (trace (if (0 <? attempt)%nat then log RetryDelay st else st)) = calls (trace st).
Proof.
  destruct (0 <? attempt)%nat; [|done]. cbn [log trace]. rewrite calls_snoc. cbn. lia.
Qed.

Lemma attempts_retry_then_text todo w key st j text :
  (∀ i, i < j → ∃ attempt e,
          todo !! i = Some attempt
          ∧ attempt ≠ Config.GOOGLE_TRANSLATE_MAX_RETRIES - 1
          ∧ remote (calls (trace st) + i) w = Raised e ∧ retriable e = true) →
  j < length todo →
  remote (calls (trace st) + j) w = Returned (Some text) → text ≠ "" →
  let res := TranslationService.attempts remote todo w key st in
  fst res = Return (strip text)
  ∧ calls (trace (snd res)) = calls (trace st) + j + 1
  ∧ translation_cache (snd res) = <[key := strip text]> (translation_cache st).
Proof.
  revert st j. induction todo as [|attempt todo IH]; intros st j Hfail Hj Htext Hne;
    [cbn in Hj; lia|].
  cbn zeta. cbn [TranslationService.attempts].
  pose proof (attempt_body_calls remote attempt w key st) as Hn.
  pose proof (attempt_body_cache remote attempt w key st) as Hc.
  destruct j as [|j].
  - rewrite Nat.add_0_r in Htext.
    pose proof (attempt_body_text attempt w key st text) as Hb. cbn zeta in Hb.
    rewrite calls_retry_delay in Hb. specialize (Hb Htext Hne).
    destruct (TranslationService.attempt_body remote attempt w key st) as [t st1].
    cbn [fst snd] in *. subst t. cbn [fst snd]. split_and!; [done|lia|done].
  - destruct (Hfail 0) as (a & e & Ha & Hlast & Hr & He); [lia|].
    cbn in Ha. injection Ha as <-. rewrite Nat.add_0_r in Hr.
    pose proof (attempt_body_retry attempt w key st e) as Hb. cbn zeta in Hb.
    rewrite calls_retry_delay in Hb. specialize (Hb Hr He Hlast).
    destruct (TranslationService.attempt_body remote attempt w key st) as [t st1].
    cbn [fst snd] in *. subst t.
    specialize (IH st1 j). cbn zeta in IH.
    destruct IH as (H1 & H2 & H3).
    + intros i Hi. destruct (Hfail (S i)) as (a & e' & Ha & ? & Hr' & ?); [lia|].
      exists a, e'. split_and!; try done.
      rewrite Hn. by replace (S (calls (trace st)) + i) with (calls (trace st) + S i) by lia.
    + cbn [length] in Hj. lia.
    + rewrite Hn. by replace (S (calls (trace st)) + j) with (calls (trace st) + S j) by lia.
    + done.
    + split_and!; [done|lia|]. by rewrite H3, Hc.
Qed.

End ServiceMore.

Section ServiceOutcomes.

Variable remote : nat → string → RemoteOutcome.

Lemma attempts_skip todo w key st j :
  (∀ i, i < j → ∃ attempt e,
          todo !! i = Some attempt
          ∧ attempt ≠ Config.GOOGLE_TRANSLATE_MAX_RETRIES - 1
          ∧ remote (calls (trace st) + i) w = Raised e ∧ retriable e = true) →
  ∃ stj,
    calls (trace stj) = calls (trace st) + j
    ∧ translation_cache stj = translation_cache st
    ∧ TranslationService.attempts remote todo w key st
      = TranslationService.attempts remote (drop j todo) w key stj.
Proof.
  revert st todo. induction j as [|j IH]; intros st todo Hfail.
  - exists st. rewrite drop_0. split_and!; [lia|done|done].
  - destruct (Hfail 0) as (attempt & e & Ha & Hlast & Hr & He); [lia|].
    destruct todo as [|a todo]; [done|]. cbn in Ha. injection Ha as ->.
    rewrite Nat.add_0_r in Hr.
    pose proof (attempt_body_calls remote attempt w key st) as Hn.
    pose proof (attempt_body_cache remote attempt w key st) as Hc.
    pose proof (attempt_body_retry remote attempt w key st e) as Hb. cbn zeta in Hb.
    rewrite calls_retry_delay in Hb. specialize (Hb Hr He Hlast).
    cbn [TranslationService.attempts drop].
    destruct (TranslationService.attempt_body remote attempt w key st) as [t st1].
    cbn [fst snd] in *. subst t.
    destruct (IH st1 todo) as (stj & H1 & H2 & H3).
    + intros i Hi. destruct (Hfail (S i)) as (a & e' & Ha & ? & Hr' & ?); [lia|].
      exists a, e'. split_and!; try done.
      rewrite Hn. by replace (S (calls (trace st)) + i) with (calls (trace st) + S i) by lia.
    + exists stj. split_and!; [lia|congruence|done].
Qed.

Lemma first_attempts_retry (w : string) (st : Service) (j : nat) :
  j < Config.GOOGLE_TRANSLATE_MAX_RETRIES →
  (∀ i, i < j → ∃ e, remote (calls (trace st) + i) w = Raised e ∧ retriable e = true) →
  ∀ i, i < j → ∃ attempt e,
    seq 0 Config.GOOGLE_TRANSLATE_MAX_RETRIES !! i = Some attempt
    ∧ attempt ≠ Config.GOOGLE_TRANSLATE_MAX_RETRIES - 1
    ∧ remote (calls (trace st) + i) w = Raised e ∧ retriable e = true.
Proof.
  intros Hj Hfail i Hi. destruct (Hfail i Hi) as (e & Hr & He).
  exists i, e. split_and!; try done.
  - by rewrite lookup_seq_lt by lia.
  - unfold Config.GOOGLE_TRANSLATE_MAX_RETRIES in *. lia.
Qed.

Lemma translate_miss w st :
  translation_cache st !! TranslationService.cache_key_of w = None →
  TranslationService.translate_to_swahili remote w st
  = TranslationService.attempts remote (seq 0 Config.GOOGLE_TRANSLATE_MAX_RETRIES) w
      (TranslationService.cache_key_of w) st.
Proof. intros H. unfold TranslationService.translate_to_swahili. by rewrite H. Qed.

End ServiceOutcomes.

(** X10: a translation ends in one of four ways only: the value, or one of
    the three classified failures.  The message "Translation failed after
    multiple attempts" after the loop is never raised; a failure has cost at
    least one remote call and leaves the cache as it was; no call makes more
    than MAX_RETRIES remote calls. *)
Theorem translate_outcome_is_classified
    (remote : nat → string → RemoteOutcome) (w : string) (st : Service) :
  let res := TranslationService.translate_to_swahili remote w st in
  calls (trace (snd res)) ≤ calls (trace st) + Config.GOOGLE_TRANSLATE_MAX_RETRIES
  ∧ match fst res with
    | Return v => translation_cache (snd res) !! TranslationService.cache_key_of w = Some v
    | Raise m =>
        classified_failure m
        ∧ m ≠ "Translation failed after multiple attempts"
        ∧ calls (trace st) < calls (trace (snd res))
        ∧ translation_cache (snd res) = translation_cache st
    end.
Proof.
  cbn zeta. unfold TranslationService.translate_to_swahili.
  destruct (translation_cache st !! TranslationService.cache_key_of w) as [c|] eqn:E.
  { cbn [fst snd]. split; [lia|done]. }
  pose proof (attempts_cases remote (seq 0 Config.GOOGLE_TRANSLATE_MAX_RETRIES) w
                (TranslationService.cache_key_of w) st) as [Hb Hres].
  rewrite length_seq in Hb. split; [lia|].
  destruct (fst (TranslationService.attempts remote _ w _ st)) as [v|m].
  - destruct Hres as [-> _]. apply lookup_insert_eq.
  - destruct Hres as [Hc [[Hm Hn]|[_ Hnot]]].
    + split_and!; try done.
      destruct Hm as [->|[->|[e ->]]]; [done|done|].
      intros H. simpl in H. discriminate H.
    + exfalso. apply Hnot. apply elem_of_seq.
      unfold Config.GOOGLE_TRANSLATE_MAX_RETRIES. lia.
Qed.

(** X11: a call changes the cache at most at its own key, and there only
    from absent to present: what is cached is never overwritten or dropped. *)
Theorem cache_entries_are_kept
    (remote : nat → string → RemoteOutcome) (w : string) (st : Service) (k : string) :
  let st' := snd (TranslationService.translate_to_swahili remote w st) in
  translation_cache st' !! k = translation_cache st !! k
  ∨ (k = TranslationService.cache_key_of w ∧ translation_cache st !! k = None).
Proof.
  cbn zeta. unfold TranslationService.translate_to_swahili.
  destruct (translation_cache st !! TranslationService.cache_key_of w) as [c|] eqn:E.
  { by left. }
  pose proof (attempts_cases remote (seq 0 Config.GOOGLE_TRANSLATE_MAX_RETRIES) w
                (TranslationService.cache_key_of w) st) as [_ Hres].
  destruct (fst (TranslationService.attempts remote _ w _ st)) as [v|m].
  - destruct Hres as [-> _].
    destruct (decide (k = TranslationService.cache_key_of w)) as [->|Hne].
    + by right.
    + left. by apply lookup_insert_ne.
  - destruct Hres as [-> _]. by left.
Qed.

(** X12: when the first [j] remote calls of a translation fail with network
    or rate-limit errors, [j] below MAX_RETRIES, and the next one returns a
    non-empty text, the translation returns that text trimmed, has made
    [j + 1] remote calls, and has cached the trimmed text under its key. *)
Theorem retry_then_success
    (remote : nat → string → RemoteOutcome) (w : string) (st : Service)
    (j : nat) (text : string) :
  translation_cache st !! TranslationService.cache_key_of w = None →
  j < Config.GOOGLE_TRANSLATE_MAX_RETRIES →
  (∀ i, i < j → ∃ e, remote (calls (trace st) + i) w = Raised e ∧ retriable e = true) →
  remote (calls (trace st) + j) w = Returned (Some text) → text ≠ "" →
  let res := TranslationService.translate_to_swahili remote w st in
  fst res = Return (strip text)
  ∧ calls (trace (snd res)) = calls (trace st) + j + 1
  ∧ translation_cache (snd res)
    = <[TranslationService.cache_key_of w := strip text]> (translation_cache st).
Proof.
  intros Hmiss Hj Hfail Htext Hne. cbn zeta. rewrite translate_miss by done.
  apply attempts_retry_then_text;
    [by apply first_attempts_retry|by rewrite length_seq|done|done].
Qed.

Lemma retry_then_success_witness :
  fst (TranslationService.translate_to_swahili fails_once "friend" st0) = Return "rafiki"
  ∧ calls (trace (snd (TranslationService.translate_to_swahili fails_once "friend" st0)))
    = 2.
Proof.
  destruct (retry_then_success fails_once "friend" st0 1 "rafiki") as (H1 & H2 & _).
  - reflexivity.
  - unfold Config.GOOGLE_TRANSLATE_MAX_RETRIES. lia.
  - intros i Hi. exists "timeout". replace i with 0 by lia. split; reflexivity.
  - reflexivity.
  - discriminate.
  - split; [exact H1|exact H2].
Defined.

(** X13: an error that is neither a network nor a rate-limit error ends the
    translation on the attempt it occurs on, also after retries: the message
    is "Translation service error: " followed by the error's own message, no
    further remote call is made, and the cache stays as it was. *)
Theorem unclassified_error_fails_at_once
    (remote : nat → string → RemoteOutcome) (w : string) (st : Service)
    (j : nat) (e : string) :
  translation_cache st !! TranslationService.cache_key_of w = None →
  j < Config.GOOGLE_TRANSLATE_MAX_RETRIES →
  (∀ i, i < j → ∃ e', remote (calls (trace st) + i) w = Raised e' ∧ retriable e' = true) →
  remote (calls (trace st) + j) w = Raised e → retriable e = false →
  let res := TranslationService.translate_to_swahili remote w st in
  fst res = Raise ("Translation service error: " +:+ e)
  ∧ calls (trace (snd res)) = calls (trace st) + j + 1
  ∧ translation_cache (snd res) = translation_cache st.
Proof.
  intros Hmiss Hj Hfail Hr He. cbn zeta. rewrite translate_miss by done.
  destruct (attempts_skip remote (seq 0 Config.GOOGLE_TRANSLATE_MAX_RETRIES) w
              (TranslationService.cache_key_of w) st j) as (stj & Hn & Hc & ->).
  { by apply first_attempts_retry. }
  rewrite drop_seq. 
  destruct (Config.GOOGLE_TRANSLATE_MAX_RETRIES - j) as [|n] eqn:Hlen; [lia|].
  cbn [seq TranslationService.attempts].
  pose proof (attempt_body_calls remote (0 + j) w (TranslationService.cache_key_of w) stj)
    as Hn'.
  pose proof (attempt_body_cache remote (0 + j) w (TranslationService.cache_key_of w) stj)
    as Hc'.
  assert (fst (TranslationService.attempt_body remote (0 + j) w
                 (TranslationService.cache_key_of w) stj)
          = Leave (Raise ("Translation service error: " +:+ e))) as Hb.
  { unfold TranslationService.attempt_body. rewrite calls_retry_delay, Hn, Hr.
    unfold TranslationService.handler. unfold retriable in He.
    apply orb_false_iff in He as [-> ->]. done. }
  destruct (TranslationService.attempt_body remote (0 + j) w _ stj) as [t st1].
  cbn [fst snd] in *. subst t. cbn [fst snd]. split_and!; [done|lia|congruence].
Qed.

Lemma unclassified_error_witness :
  fst (TranslationService.translate_to_swahili (always_raises "Invalid API key") "zebra" st0)
  = Raise "Translation service error: Invalid API key".
Proof.
  destruct (unclassified_error_fails_at_once (always_raises "Invalid API key")
              "zebra" st0 0 "Invalid API key") as (H1 & _).
  - reflexivity.
  - unfold Config.GOOGLE_TRANSLATE_MAX_RETRIES. lia.
  - intros i Hi. lia.
  - reflexivity.
  - reflexivity.
  - exact H1.
Defined.

(** X14: when all MAX_RETRIES remote calls of a translation fail with
    network or rate-limit errors, in any mix, the translation makes exactly
    MAX_RETRIES calls and raises the message of the class of the last error:
    the network message if that error is a network error, the rate-limit
    message otherwise. *)
Theorem retries_exhausted
    (remote : nat → string → RemoteOutcome) (w : string) (st : Service) (e : string) :
  translation_cache st !! TranslationService.cache_key_of w = None →
  (∀ i, i < Config.GOOGLE_TRANSLATE_MAX_RETRIES - 1 →
        ∃ e', remote (calls (trace st) + i) w = Raised e' ∧ retriable e' = true) →
  remote (calls (trace st) + (Config.GOOGLE_TRANSLATE_MAX_RETRIES - 1)) w = Raised e →
  retriable e = true →
  let res := TranslationService.translate_to_swahili remote w st in
  fst res = Raise (if TranslationService.is_network_error (lower e)
                   then "Network timeout - please check your internet connection"
                   else "Rate limit exceeded - please try again later")
  ∧ calls (trace (snd res)) = calls (trace st) + Config.GOOGLE_TRANSLATE_MAX_RETRIES
  ∧ translation_cache (snd res) = translation_cache st.
Proof.
  intros Hmiss Hfail Hr He. cbn zeta. rewrite translate_miss by done.
  destruct (attempts_skip remote (seq 0 Config.GOOGLE_TRANSLATE_MAX_RETRIES) w
              (TranslationService.cache_key_of w) st
              (Config.GOOGLE_TRANSLATE_MAX_RETRIES - 1)) as (stj & Hn & Hc & ->).
  { apply first_attempts_retry; [unfold Config.GOOGLE_TRANSLATE_MAX_RETRIES; lia|done]. }
  change (drop (Config.GOOGLE_TRANSLATE_MAX_RETRIES - 1)
            (seq 0 Config.GOOGLE_TRANSLATE_MAX_RETRIES)) with [2].
  cbn [TranslationService.attempts].
  pose proof (attempt_body_calls remote 2 w (TranslationService.cache_key_of w) stj) as Hn'.
  pose proof (attempt_body_cache remote 2 w (TranslationService.cache_key_of w) stj) as Hc'.
  assert (fst (TranslationService.attempt_body remote 2 w
                 (TranslationService.cache_key_of w) stj)
          = Leave (Raise (if TranslationService.is_network_error (lower e)
                          then "Network timeout - please check your internet connection"
                          else "Rate limit exceeded - please try again later"))) as Hb.
  { unfold TranslationService.attempt_body. rewrite calls_retry_delay, Hn, Hr.
    unfold TranslationService.handler. unfold retriable in He.
    destruct (TranslationService.is_network_error (lower e)); [done|].
    cbn [orb] in He. by rewrite He. }
  destruct (TranslationService.attempt_body remote 2 w _ stj) as [t st1].
  cbn [fst snd] in *. subst t. cbn [fst snd].
  unfold Config.GOOGLE_TRANSLATE_MAX_RETRIES in *. split_and!; [done|lia|congruence].
Qed.

Lemma retries_exhausted_witness :
  fst (TranslationService.translate_to_swahili (always_raises "HTTP 429 Too Many Requests")
         "zebra" st0)
  = Raise "Rate limit exceeded - please try again later".
Proof.
  destruct (retries_exhausted (always_raises "HTTP 429 Too Many Requests") "zebra" st0
              "HTTP 429 Too Many Requests") as (H1 & _).
  - reflexivity.
  - intros i _. exists "HTTP 429 Too Many Requests". split; reflexivity.
  - reflexivity.
  - reflexivity.
  - exact H1.
Defined.

Lemma translate_outcome_cases
    (remote : nat → string → RemoteOutcome) (w : string) (st : Service) :
  match fst (TranslationService.translate_to_swahili remote w st) with
  | Return _ => True
  | Raise m => classified_failure m
  end.
Proof.
  unfold TranslationService.translate_to_swahili.
  destruct (translation_cache st !! TranslationService.cache_key_of w); [done|].
  pose proof (attempts_cases remote (seq 0 Config.GOOGLE_TRANSLATE_MAX_RETRIES) w
                (TranslationService.cache_key_of w) st) as [_ Hres].
  destruct (fst (TranslationService.attempts remote _ w _ st)) as [v|m]; [done|].
  destruct Hres as [_ [[Hm _]|[_ Hnot]]]; [done|].
  exfalso. apply Hnot, elem_of_seq. unfold Config.GOOGLE_TRANSLATE_MAX_RETRIES. lia.
Qed.

(** ** More on the fallback dictionary and the handler *)

Lemma fallback_table_checked :
  map_Forall (λ (lang : string) (d : gmap string string),
                is_Some (Config.SUPPORTED_LANGUAGES !! lang)
                ∧ map_Forall (λ (_ : string) (t : string), t ≠ "") d)
    Config.FALLBACK_TRANSLATIONS.
Proof. apply (bool_decide_unpack _). by vm_compute. Qed.

Lemma fallback_translation_truthy word lang t :
  Config.get_fallback_translation word lang = Some t →
  t ≠ "" ∧ is_Some (Config.SUPPORTED_LANGUAGES !! lang).
Proof.
  unfold Config.get_fallback_translation.
  destruct (Config.FALLBACK_TRANSLATIONS !! lang) as [d|] eqn:Hd; [|done].
  intros Ht. destruct (map_Forall_lookup_1 _ _ _ _ fallback_table_checked Hd) as [Hs Hall].
  split; [|done]. by apply (map_Forall_lookup_1 _ _ _ _ Hall Ht).
Qed.

Section HandlerMore.

Variable sort_values : list Row → list Row.
Variable remote : nat → string → RemoteOutcome.
Variable df : DataFrame.

Lemma truthy_search english_word lang o :
  WordMatcher.search_in_csv sort_values english_word lang df = Value o →
  truthy o = bool_decide (is_Some o).
Proof.
  intros Hc%search_in_csv_clean. destruct o as [t|]; [|done].
  destruct (Hc t eq_refl) as [Hne _]. cbn [truthy].
  apply is_empty_false in Hne. by rewrite Hne.
Qed.

Lemma truthy_fallback word lang :
  truthy (Config.get_fallback_translation word lang)
  = bool_decide (is_Some (Config.get_fallback_translation word lang)).
Proof.
  destruct (Config.get_fallback_translation word lang) as [t|] eqn:E; [|done].
  destruct (fallback_translation_truthy word lang t E) as [Hne _]. cbn [truthy].
  apply is_empty_false in Hne. by rewrite Hne.
Qed.

Lemma respond_responded w lang t m b e r :
  Main.respond w lang t m b e = Responded r →
  english_of r = w ∧ translation r = t ∧ target_language_of r = lang
  ∧ method r = m ∧ success r = b ∧ error r = e
  ∧ Config.SUPPORTED_LANGUAGES !! lang = Some (language_name r).
Proof.
  unfold Main.respond. destruct (Config.SUPPORTED_LANGUAGES !! lang) as [name|]; [|done].
  by intros [= <-].
Qed.

Lemma respond_supported w lang t m b e name :
  Config.SUPPORTED_LANGUAGES !! lang = Some name →
  Main.respond w lang t m b e = Responded (mkTranslationResponse w t lang name m b e).
Proof. intros H. unfold Main.respond. by rewrite H. Qed.

Lemma respond_unsupported w lang t m b e :
  Config.SUPPORTED_LANGUAGES !! lang = None →
  Main.respond w lang t m b e = TranslationFailed (KeyError lang).
Proof. intros H. unfold Main.respond. by rewrite H. Qed.

(** The handler on a valid input, tier by tier. *)
Lemma translate_word_valid request st :
  let word := strip (english_word request) in
  let lang := lower (target_language request) in
  fst (TextProcessor.validate_input (english_word request)) = true →
  Main.translate_word sort_values remote df request st
  = match WordMatcher.search_in_csv sort_values word lang df with
    | Throws e => (TranslationFailed e, st)
    | Value (Some t) => (Main.respond word lang t "csv_lookup" true None, st)
    | Value None =>
        match Config.get_fallback_translation word lang with
        | Some t => (Main.respond word lang t "fallback_dictionary" true None, st)
        | None =>
            if bool_decide (lang = "swahili") then
              match TranslationService.translate_to_swahili remote word st with
              | (Return t, st') =>
                  (Main.respond word lang t "google_translate" true None, st')
              | (Raise e, st') =>
                  (Main.respond word lang "" "failed" false (Some e), st')
              end
            else
              (Main.respond word lang "" "not_found" false
                 (Some ("No " +:+ lang +:+ " translation found for '" +:+ word +:+ "'")),
               st)
        end
    end.
Proof.
  intros word lang Hv. unfold Main.translate_word. fold word lang.
  destruct (TextProcessor.validate_input (english_word request)) as [v m].
  cbn [fst] in Hv. subst v. cbn [negb].
  destruct (WordMatcher.search_in_csv sort_values word lang df) as [o|e] eqn:Hs; [|done].
  rewrite (truthy_search word lang o Hs), truthy_fallback.
  destruct o as [t|]; [done|].
  rewrite (bool_decide_eq_false_2 (is_Some None)) by (by intros [? ?]).
  destruct (Config.get_fallback_translation word lang) as [t|]; [done|].
  by rewrite (bool_decide_eq_false_2 (is_Some None)) by (by intros [? ?]).
Qed.

Lemma translate_word_supported request st o name :
  fst (TextProcessor.validate_input (english_word request)) = true →
  WordMatcher.search_in_csv sort_values (strip (english_word request))
    (lower (target_language request)) df = Value o →
  Config.SUPPORTED_LANGUAGES !! lower (target_language request) = Some name →
  ∃ r, fst (Main.translate_word sort_values remote df request st) = Responded r.
Proof.
  intros Hv Ho Hname. rewrite translate_word_valid, Ho by done.
  repeat match goal with
         | |- context [if ?b then _ else _] => destruct b
         | |- context [match ?x with (_, _) => _ end] => destruct x as [[?|?] ?]
         | |- context [match ?x with Some _ => _ | None => _ end] => destruct x
         end; cbn [fst]; rewrite (respond_supported _ _ _ _ _ _ _ Hname); by eexists.
Qed.

Lemma translate_word_responses request st r :
  let word := strip (english_word request) in
  let lang := lower (target_language request) in
  fst (Main.translate_word sort_values remote df request st) = Responded r →
  english_of r = word ∧ target_language_of r = lang
  ∧ Config.SUPPORTED_LANGUAGES !! lang = Some (language_name r)
  ∧ ((method r = "csv_lookup" ∧ success r = true ∧ error r = None
      ∧ translation r ≠ ""
      ∧ WordMatcher.search_in_csv sort_values word lang df = Value (Some (translation r)))
     ∨ (method r = "fallback_dictionary" ∧ success r = true ∧ error r = None
        ∧ translation r ≠ ""
        ∧ Config.get_fallback_translation word lang = Some (translation r))
     ∨ (method r = "google_translate" ∧ success r = true ∧ error r = None
        ∧ lang = "swahili")
     ∨ (method r = "failed" ∧ success r = false ∧ translation r = ""
        ∧ lang = "swahili" ∧ ∃ m, error r = Some m ∧ classified_failure m)
     ∨ (method r = "not_found" ∧ success r = false ∧ translation r = ""
        ∧ lang ≠ "swahili"
        ∧ error r = Some ("No " +:+ lang +:+ " translation found for '" +:+ word +:+ "'"))).
Proof.
  intros word lang.
  destruct (fst (TextProcessor.validate_input (english_word request))) eqn:Hv;
    [|by rewrite translate_word_invalid].
  rewrite translate_word_valid by done. fold word lang.
  destruct (WordMatcher.search_in_csv sort_values word lang df) as [[t|]|e] eqn:Hs;
    [| |done].
  { pose proof (search_in_csv_clean sort_values word lang df _ Hs) as Hclean.
    cbn [fst].
    intros (? & ? & ? & ? & ? & ? & ?)%respond_responded. subst.
    split_and!; try done. left. split_and!; try done.
    by destruct (Hclean _ eq_refl). }
  destruct (Config.get_fallback_translation word lang) as [t|] eqn:Hf.
  { cbn [fst].
    intros (? & ? & ? & ? & ? & ? & ?)%respond_responded. subst.
    split_and!; try done. right; left. split_and!; try done.
    by destruct (fallback_translation_truthy _ _ _ Hf). }
  case_bool_decide as Hl.
  - pose proof (translate_outcome_cases remote word st) as Hcls.
    destruct (TranslationService.translate_to_swahili remote word st) as [[v|e] st'];
      cbn [fst] in *;
      intros (? & ? & ? & ? & ? & ? & ?)%respond_responded; subst;
      (split_and!; try done).
    + right; right; left. done.
    + right; right; right; left. split_and!; try done. by exists e.
  - cbn [fst].
    intros (? & ? & ? & ? & ? & ? & ?)%respond_responded; subst.
    split_and!; try done. right; right; right; right. done.
Qed.

End HandlerMore.




(** X15: the status of the answer.  An input that fails the validation gets
    a 400 with the validation message.  For a valid input: when the table
    lookup raises, the answer is the 500 of that exception; when it returns,
    the answer is a normal response exactly when
    [Config.is_supported_language] holds of the target language, whatever the
    lookup found and the remote translator does, and the 500 of the
    [KeyError] of the language otherwise. *)
Theorem handler_status
    (sort_values : list Row → list Row) (remote : nat → string → RemoteOutcome)
    (df : DataFrame) (request : TranslationRequest) (st : Service) :
  let res := fst (Main.translate_word sort_values remote df request st) in
  let valid := fst (TextProcessor.validate_input (english_word request)) in
  let lang := lower (target_language request) in
  let lookup :=
    WordMatcher.search_in_csv sort_values (strip (english_word request)) lang df in
  (valid = false →
   res = HTTPException 400 (snd (TextProcessor.validate_input (english_word request))))
  ∧ (valid = true → ∀ e, lookup = Throws e → res = TranslationFailed e)
  ∧ (valid = true → ∀ o, lookup = Value o →
     Config.is_supported_language (target_language request) = true →
     ∃ r, res = Responded r)
  ∧ (valid = true → ∀ o, lookup = Value o →
     Config.is_supported_language (target_language request) = false →
     res = TranslationFailed (KeyError lang)).
Proof.
  cbn zeta. split_and!.
  - intros H. by rewrite translate_word_invalid.
  - intros Hv e He. by rewrite translate_word_valid, He.
  - intros Hv o Ho Hs. apply bool_decide_eq_true in Hs as [name Hname].
    by eapply translate_word_supported.
  - intros Hv o Ho Hs. apply bool_decide_eq_false in Hs.
    assert (Config.SUPPORTED_LANGUAGES !! lower (target_language request) = None) as Hname.
    { destruct (Config.SUPPORTED_LANGUAGES !! lower (target_language request)) eqn:E;
        [|done]. exfalso. apply Hs. by eexists. }
    rewrite translate_word_valid, Ho by done.
    repeat match goal with
           | |- context [if ?b then _ else _] => destruct b
           | |- context [match ?x with (_, _) => _ end] => destruct x as [[?|?] ?]
           | |- context [match ?x with Some _ => _ | None => _ end] => destruct x
           end; cbn [fst]; by rewrite (respond_unsupported _ _ _ _ _ _ Hname).
Qed.

Lemma handler_status_witness :
  ∃ r, fst (Main.translate_word stable_sort_by_len (always_returns "x") df_book
              (mkRequest " Book" "Swahili") st0) = Responded r.
Proof.
  destruct (handler_status stable_sort_by_len (always_returns "x") df_book
              (mkRequest " Book" "Swahili") st0) as (_ & _ & H & _).
  apply (H eq_refl (Some "kitabu")); reflexivity.
Defined.

(** X16: the remote translator is the last resort.  The handler leaves the
    service (cache and calls) as it was unless the input is valid, the target
    language is swahili, and both the table and the fallback dictionary have
    nothing for the word. *)
Theorem remote_only_as_last_resort
    (sort_values : list Row → list Row) (remote : nat → string → RemoteOutcome)
    (df : DataFrame) (request : TranslationRequest) (st : Service) :
  let word := strip (english_word request) in
  let lang := lower (target_language request) in
  snd (Main.translate_word sort_values remote df request st) ≠ st →
  fst (TextProcessor.validate_input (english_word request)) = true
  ∧ lang = "swahili"
  ∧ WordMatcher.search_in_csv sort_values word lang df = Value None
  ∧ Config.get_fallback_translation word lang = None
  ∧ translation_cache st !! TranslationService.cache_key_of word = None.
Proof.
  cbn zeta.
  destruct (fst (TextProcessor.validate_input (english_word request))) eqn:Hv;
    [|by rewrite translate_word_invalid].
  rewrite translate_word_valid by done.
  destruct (WordMatcher.search_in_csv _ _ _ _) as [[t|]|e]; [done| |done].
  destruct (Config.get_fallback_translation _ _) as [t|]; [done|].
  case_bool_decide as Hl; [|done]. intros Hst.
  split_and!; [done|done|done|done|].
  destruct (translation_cache st !! TranslationService.cache_key_of
                                     (strip (english_word request))) as [c|] eqn:E;
    [|done].
  exfalso. apply Hst.
  by rewrite (translate_cached remote _ st c E).
Qed.

Lemma remote_only_witness :
  lower "Swahili" = "swahili"
  ∧ WordMatcher.search_in_csv stable_sort_by_len "zebra" "swahili" df_demo = Value None.
Proof.
  destruct (remote_only_as_last_resort stable_sort_by_len (always_returns "pundamilia")
              df_demo (mkRequest "zebra" "Swahili") st0) as (_ & H1 & H2 & _).
  - vm_compute. intros H. discriminate H.
  - split; [exact H1|exact H2].
Defined.

(** X17: every normal response of the handler has one of five shapes.  A
    table hit or a dictionary hit carries that very translation, which is not
    empty, with success and no error; a remote translation carries success
    and no error; a remote failure carries no translation and, as its error,
    one of the classified failure messages of the service; a miss carries no
    translation and the message that none was found. *)
Theorem response_shapes
    (sort_values : list Row → list Row) (remote : nat → string → RemoteOutcome)
    (df : DataFrame) (request : TranslationRequest) (st : Service)
    (r : TranslationResponse) :
  let word := strip (english_word request) in
  let lang := lower (target_language request) in
  fst (Main.translate_word sort_values remote df request st) = Responded r →
  english_of r = word ∧ target_language_of r = lang
  ∧ Config.SUPPORTED_LANGUAGES !! lang = Some (language_name r)
  ∧ ((method r = "csv_lookup" ∧ success r = true ∧ error r = None
      ∧ translation r ≠ ""
      ∧ WordMatcher.search_in_csv sort_values word lang df = Value (Some (translation r)))
     ∨ (method r = "fallback_dictionary" ∧ success r = true ∧ error r = None
        ∧ translation r ≠ ""
        ∧ Config.get_fallback_translation word lang = Some (translation r))
     ∨ (method r = "google_translate" ∧ success r = true ∧ error r = None
        ∧ lang = "swahili")
     ∨ (method r = "failed" ∧ success r = false ∧ translation r = ""
        ∧ lang = "swahili" ∧ ∃ m, error r = Some m ∧ classified_failure m)
     ∨ (method r = "not_found" ∧ success r = false ∧ translation r = ""
        ∧ lang ≠ "swahili"
        ∧ error r = Some ("No " +:+ lang +:+ " translation found for '" +:+ word +:+ "'"))).
Proof. apply translate_word_responses. Qed.

Lemma response_shapes_witness :
  let r := {| english_of := "zebra"; translation := "";
              target_language_of := "swahili"; language_name := "Swahili";
              method := "failed"; success := false;
              error := Some "Network timeout - please check your internet connection" |} in
  english_of r = "zebra" ∧ target_language_of r = "swahili"
  ∧ Config.SUPPORTED_LANGUAGES !! "swahili" = Some (language_name r).
Proof.
  intros r.
  destruct (response_shapes stable_sort_by_len (always_raises "SSL handshake failed")
              df_demo (mkRequest " zebra" "Swahili") st0 r) as (H1 & H2 & H3 & _);
    [reflexivity|].
  split_and!; [exact H1|exact H2|exact H3].
Defined.

(** X18: a remote text that is not empty but blank is taken as a
    translation: trimmed to the empty string, it is cached and returned, and
    the handler answers with success and an empty translation. *)
Theorem blank_remote_text_counts_as_success
    (sort_values : list Row → list Row) (remote : nat → string → RemoteOutcome)
    (df : DataFrame) (request : TranslationRequest) (st : Service) (text : string) :
  let word := strip (english_word request) in
  fst (TextProcessor.validate_input (english_word request)) = true →
  lower (target_language request) = "swahili" →
  WordMatcher.search_in_csv sort_values word "swahili" df = Value None →
  Config.get_fallback_translation word "swahili" = None →
  translation_cache st !! TranslationService.cache_key_of word = None →
  remote (calls (trace st)) word = Returned (Some text) →
  text ≠ "" → strip text = "" →
  let res := Main.translate_word sort_values remote df request st in
  fst res = Responded {| english_of := word; translation := "";
                         target_language_of := "swahili"; language_name := "Swahili";
                         method := "google_translate"; success := true;
                         error := None |}
  ∧ translation_cache (snd res) !! TranslationService.cache_key_of word = Some "".
Proof.
  cbn zeta. intros Hv Hl Hs Hf Hmiss Hr Hne Hblank.
  pose proof (attempts_retry_then_text remote (seq 0 Config.GOOGLE_TRANSLATE_MAX_RETRIES)
                (strip (english_word request))
                (TranslationService.cache_key_of (strip (english_word request)))
                st 0 text) as Ha.
  cbn zeta in Ha. rewrite Nat.add_0_r in Ha.
  destruct Ha as (H1 & _ & H3); [intros i Hi; lia|cbn; lia|done|done|].
  rewrite <- translate_miss in H1, H3 by done. rewrite Hblank in H1, H3.
  unfold Main.translate_word.
  destruct (TextProcessor.validate_input (english_word request)) as [v m].
  cbn [fst] in Hv. subst v. cbn [negb]. rewrite Hl, Hs, Hf. cbn [truthy].
  rewrite bool_decide_eq_true_2 by done.
  destruct (TranslationService.translate_to_swahili remote _ st) as [o st'].
  cbn [fst snd] in *. subst o. cbn [fst snd]. split; [done|].
  rewrite H3. apply lookup_insert_eq.
Qed.

Lemma blank_remote_text_witness :
  fst (Main.translate_word stable_sort_by_len (always_returns "  ") df_demo
         (mkRequest "zebra" "swahili") st0)
  = Responded {| english_of := "zebra"; translation := "";
                 target_language_of := "swahili"; language_name := "Swahili";
                 method := "google_translate"; success := true; error := None |}.
Proof.
  destruct (blank_remote_text_counts_as_success stable_sort_by_len (always_returns "  ")
              df_demo (mkRequest "zebra" "swahili") st0 "  ") as [H _];
    [reflexivity|reflexivity|reflexivity|reflexivity|reflexivity|reflexivity
    |discriminate|reflexivity|exact H].
Defined.

(** ** The loader *)

Lemma find_head_filter {A} (p : A → bool) l : List.find p l = head (List.filter p l).
Proof. induction l as [|a l IH]; [done|]. simpl. by destruct (p a). Qed.

Lemma clean_cell_normal c : ∃ s, CSVLoader.clean_cell c = Some s ∧ ws_normal s ∧ strip s = s.
Proof.
  unfold CSVLoader.clean_cell. eexists. split; [done|].
  destruct (is_empty (strip (default "" c))); [done|].
  unfold ws_normal. split.
  - by rewrite split_join by apply split_tokens.
  - apply strip_join_tokens, split_tokens.
Qed.

Lemma clean_row_items names row item :
  item ∈ CSVLoader.clean_row names row →
  ∃ c, snd item = CSVLoader.clean_value (fst item) c.
Proof.
  unfold CSVLoader.clean_row. intros (i & name & -> & _)%elem_of_lookup_imap.
  by eexists.
Qed.

Lemma imap_labels (g : nat → string → cell) (names : list string) :
  fst <$> imap (λ i name, (name, g i name)) names = names.
Proof.
  revert g. induction names as [|n names IH]; intros g; [done|].
  cbn. f_equal. apply (IH (λ i, g (S i))).
Qed.

Lemma clean_row_labels names row : fst <$> CSVLoader.clean_row names row = names.
Proof.
  unfold CSVLoader.clean_row.
  apply (imap_labels (λ i name, CSVLoader.clean_value name (default None (row !! i)))).
Qed.

Lemma filter_fmap {A B} (f : A → B) (p : B → bool) l :
  List.filter p (f <$> l) = f <$> List.filter (λ x, p (f x)) l.
Proof.
  induction l as [|a l IH]; [done|]. csimpl. destruct (p (f a)); csimpl; by rewrite IH.
Qed.

Lemma column_index_items name (items : list (string * cell)) i :
  column_index name (fst <$> items) = Some i →
  ∃ c, items !! i = Some (name, c).
Proof.
  revert i. induction items as [|[n c] items IH]; intros i; csimpl; [done|].
  case_bool_decide as E.
  - intros [= <-]. subst. by exists c.
  - destruct (column_index name (fst <$> items)) as [j|]; [|done].
    csimpl. intros [= <-]. destruct (IH j eq_refl) as [c' Hc']. by exists c'.
Qed.

Lemma column_index_found name cols :
  name ∈ cols → is_Some (column_index name cols).
Proof.
  induction cols as [|c cols IH]; [by intros ?%elem_of_nil|]. simpl.
  case_bool_decide; [by eexists|].
  intros [->|Hin]%elem_of_cons; [done|]. destruct (IH Hin) as [j ->]. by eexists.
Qed.

Lemma to_row_english items :
  (∀ item, item ∈ items → ∃ c, snd item = CSVLoader.clean_value (fst item) c) →
  ws_normal (english (CSVLoader.to_row items)).
Proof.
  intros Hitems. unfold CSVLoader.to_row. cbn [english].
  destruct (List.find CSVLoader.is_english items) as [[n c]|] eqn:Hf; [|done].
  apply find_some in Hf as [Hin Hn]. apply bool_decide_eq_true in Hn. cbn in Hn. subst n.
  destruct (Hitems _ (proj2 (list_elem_of_In _ _) Hin)) as [c0 Hc]. cbn [fst snd] in *.
  unfold CSVLoader.clean_value in Hc. rewrite bool_decide_eq_true_2 in Hc
    by (apply list_elem_of_here).
  destruct (clean_cell_normal c0) as (s & Hs & Hn & _). rewrite Hc, Hs. done.
Qed.

Lemma to_row_cell names row lang :
  lang ∈ CSVLoader.required_columns → lang ≠ "english" →
  lang ∈ List.filter (λ n, negb (bool_decide (n = "english"))) names →
  ∃ s, cell_at (List.filter (λ n, negb (bool_decide (n = "english"))) names) lang
         (CSVLoader.to_row (CSVLoader.clean_row names row)) = Some s
       ∧ ws_normal s ∧ strip s = s.
Proof.
  intros Hreq Hne Hin.
  set (items := CSVLoader.clean_row names row).
  set (rest := List.filter (λ item, negb (CSVLoader.is_english item)) items).
  assert (List.filter (λ n, negb (bool_decide (n = "english"))) names = fst <$> rest)
    as Hcols.
  { unfold rest. rewrite <- (clean_row_labels names row). fold items.
    by rewrite filter_fmap. }
  rewrite Hcols in *. unfold cell_at. rewrite bool_decide_eq_false_2 by done.
  destruct (column_index_found _ _ Hin) as [i Hi]. rewrite Hi.
  destruct (column_index_items _ _ _ Hi) as [c Hc].
  unfold CSVLoader.to_row. cbn [cells]. fold items. fold rest.
  rewrite list_lookup_fmap, Hc. cbn.
  assert ((lang, c) ∈ items) as Hitem.
  { apply list_elem_of_lookup_2 in Hc. unfold rest in Hc.
    by apply list_elem_of_In, filter_In in Hc as [?%list_elem_of_In _]. }
  destruct (clean_row_items _ _ _ Hitem) as [c0 Hc0]. cbn [fst snd] in Hc0.
  unfold CSVLoader.clean_value in Hc0. rewrite bool_decide_eq_true_2 in Hc0 by done.
  destruct (clean_cell_normal c0) as (s & Hs & Hn). exists s. by rewrite Hc0, Hs.
Qed.

Lemma clean_dataframe_rows df out r :
  CSVLoader._clean_dataframe df = Some out → r ∈ rows out →
  columns out
  = List.filter (λ n, negb (bool_decide (n = "english")))
      ((λ c, strip (lower c)) <$> raw_columns df)
  ∧ english r ≠ ""
  ∧ ∃ row, r = CSVLoader.to_row
                 (CSVLoader.clean_row ((λ c, strip (lower c)) <$> raw_columns df) row).
Proof.
  unfold CSVLoader._clean_dataframe.
  destruct (existsb _ CSVLoader.required_columns); [done|].
  destruct (negb _); [done|]. intros [= <-]. cbn [rows columns].
  intros Hr. apply list_elem_of_In, filter_In in Hr as [Hr Hlen].
  apply list_elem_of_In, list_elem_of_fmap in Hr as (row & -> & _).
  unfold compose in *. split_and!; [done| |by exists row].
  intros He. by rewrite He in Hlen.
Qed.

Lemma loader_rows_normal (df : RawFrame) (out : DataFrame) (r : Row) :
  CSVLoader._clean_dataframe df = Some out →
  r ∈ rows out →
  english r ≠ "" ∧ ws_normal (english r) ∧ strip (english r) = english r
  ∧ ("english" ∉ columns out)
  ∧ ∀ lang, is_Some (Config.SUPPORTED_LANGUAGES !! lang) → lang ∈ columns out →
            ∃ s, cell_at (columns out) lang r = Some s ∧ ws_normal s ∧ strip s = s.
Proof.
  intros Hout Hr.
  destruct (clean_dataframe_rows df out r Hout Hr) as (Hcols & Hne & row & ->).
  assert (ws_normal (english (CSVLoader.to_row
            (CSVLoader.clean_row ((λ c, strip (lower c)) <$> raw_columns df) row))))
    as Hn by (apply to_row_english, clean_row_items).
  split_and!; [done|done| | |].
  - unfold ws_normal in Hn. rewrite <- Hn. apply strip_join_tokens, split_tokens.
  - rewrite Hcols. intros Hin. apply list_elem_of_In, filter_In in Hin as [_ Hin].
    by rewrite bool_decide_eq_true_2 in Hin.
  - intros lang Hsup Hin. rewrite Hcols in *.
    assert (lang ≠ "english") as Hne'.
    { intros ->. apply list_elem_of_In, filter_In in Hin as [_ Hin].
      by rewrite bool_decide_eq_true_2 in Hin. }
    apply to_row_cell; [|done|done].
    unfold CSVLoader.required_columns. apply list_elem_of_further.
    destruct Hsup as [name Hname]. apply elem_of_list_to_map_2 in Hname.
    apply list_elem_of_fmap. by exists (lang, name).
Qed.

(** X19: what the loader guarantees of the table it hands over.  Every row
    has a non-empty entry with its whitespace normalized, and in every
    supported-language column the table has, every cell is present, trimmed
    and has its whitespace normalized; the entry column itself is not among
    the translation columns. *)
Theorem loader_invariant (df : RawFrame) (out : DataFrame) (r : Row) (lang : string) :
  CSVLoader._clean_dataframe df = Some out →
  r ∈ rows out →
  english r ≠ "" ∧ ws_normal (english r) ∧ strip (english r) = english r
  ∧ ("english" ∉ columns out)
  ∧ (is_Some (Config.SUPPORTED_LANGUAGES !! lang) → lang ∈ columns out →
     ∃ s, cell_at (columns out) lang r = Some s ∧ ws_normal s ∧ strip s = s).
Proof.
  intros Hout Hr.
  destruct (loader_rows_normal df out r Hout Hr) as (H1 & H2 & H3 & H4 & H5).
  split_and!; try done. apply H5.
Qed.

Lemma loader_invariant_witness :
  ∃ out, CSVLoader._clean_dataframe raw_demo = Some out
         ∧ ∃ s, cell_at (columns out) "haya" (mkRow "Book" [Some ""; Some " i  kitabu "; Some ""])
                = Some s ∧ ws_normal s ∧ strip s = s.
Proof.
  eexists. split; [reflexivity|].
  eapply (loader_invariant raw_demo _ (mkRow "Book" [Some ""; Some " i  kitabu "; Some ""])
            "haya").
  - reflexivity.
  - apply list_elem_of_further, list_elem_of_here.
  - by eexists.
  - apply list_elem_of_further, list_elem_of_further, list_elem_of_here.
Defined.

Lemma column_index_missing name cols : name ∉ cols → column_index name cols = None.
Proof.
  intros Hnot. destruct (column_index name cols) as [i|] eqn:E; [|done].
  exfalso. by apply Hnot, (column_index_elem name cols i).
Qed.

(** X20: on a table that comes from the loader the case-insensitive tier
    is the exact tier, and the number of entries [get_available_languages]
    reports for a supported language is the number of rows the cascade can
    take a translation from. *)
Theorem loader_output_in_cascade
    (df : RawFrame) (out : DataFrame) (word lang : string) :
  CSVLoader._clean_dataframe df = Some out →
  WordMatcher._case_insensitive_match word lang out = WordMatcher._exact_match word lang out
  ∧ (is_Some (Config.SUPPORTED_LANGUAGES !! lang) →
     Main.entries_count out lang
     = length (List.filter (WordMatcher.valid_cell (columns out) lang) (rows out))).
Proof.
  intros Hout. split.
  - apply case_tier_on_normal. apply Forall_forall. intros r Hr.
    by destruct (loader_rows_normal df out r Hout Hr) as (_ & ? & _).
  - intros Hsup. unfold Main.entries_count, empty_frame.
    destruct (rows out) as [|r0 l] eqn:Hrows; [done|]. cbn [negb andb].
    rewrite <- Hrows.
    assert (lang ≠ "english") as Hne by (intros ->; by destruct Hsup).
    unfold has_column. rewrite (bool_decide_eq_false_2 _ Hne). cbn [orb].
    case_bool_decide as Hcol.
    + f_equal. apply List.filter_ext_in. intros r Hr%list_elem_of_In.
      destruct (loader_rows_normal df out r Hout Hr) as (_ & _ & _ & _ & Hcell).
      destruct (Hcell lang Hsup Hcol) as (s & Hs & _ & Hstrip).
      unfold WordMatcher.valid_cell. by rewrite Hs, Hstrip.
    + symmetry. apply length_zero_iff_nil, filter_none. intros r _.
      unfold WordMatcher.valid_cell, cell_at.
      rewrite (bool_decide_eq_false_2 _ Hne). by rewrite column_index_missing.
Qed.

Lemma loader_output_witness :
  ∃ out, CSVLoader._clean_dataframe raw_demo = Some out
         ∧ WordMatcher._case_insensitive_match "good morning" "swahili" out
           = WordMatcher._exact_match "good morning" "swahili" out.
Proof.
  eexists. split; [reflexivity|].
  eapply (loader_output_in_cascade raw_demo). reflexivity.
Defined.

(** X21: the start-up check of [run.py] and the loader look for the same
    files: [check_csv_files] passes exactly when [Config.get_csv_file_path]
    finds a file, the file found exists, and it is the first of the files
    [Config.get_all_csv_files] lists. *)
Theorem csv_file_discovery (path_exists : string → bool) :
  Config.get_csv_file_path path_exists = head (Config.get_all_csv_files path_exists)
  ∧ (Run.check_csv_files path_exists = true
     ↔ is_Some (Config.get_csv_file_path path_exists))
  ∧ (∀ file, Config.get_csv_file_path path_exists = Some file →
             path_exists file = true ∧ file ∈ Config.CSV_FILES).
Proof.
  unfold Config.get_csv_file_path, Config.get_all_csv_files, Run.check_csv_files.
  change Run.possible_files with Config.CSV_FILES.
  rewrite find_head_filter. split_and!; [done| |].
  - destruct (List.filter path_exists Config.CSV_FILES); cbn; split;
      [done|by intros []|by eexists|done].
  - intros file Hf. rewrite <- find_head_filter in Hf.
    apply find_some in Hf as [Hin Hp]. split; [done|by apply list_elem_of_In].
Qed.

Lemma csv_file_discovery_witness :
  Run.check_csv_files (λ f, bool_decide (f = "english_to_haya_sukuma_nyakyusa.csv")) = true.
Proof.
  destruct (csv_file_discovery
              (λ f, bool_decide (f = "english_to_haya_sukuma_nyakyusa.csv")))
    as (_ & H & _).
  apply H. by eexists.
Defined.

(** X22: [detect_language] answers "english" for every text: both branches
    of its test return the same value. *)
Theorem detect_language_constant (text : string) :
  TextProcessor.detect_language text = "english".
Proof. unfold TextProcessor.detect_language. by destruct (existsb _ _). Qed.

Lemma lower_lstrip s : lower (lstrip s) = lstrip (lower s).
Proof.
  induction s as [|c s IH]; simpl; [done|]. rewrite isspace_lower_char.
  by destruct (isspace c).
Qed.

Lemma lower_rstrip s : lower (rstrip s) = rstrip (lower s).
Proof.
  induction s as [|c s IH]; simpl; [done|]. rewrite isspace_lower_char, <- IH.
  assert (is_empty (lower (rstrip s)) = is_empty (rstrip s)) as -> by by destruct (rstrip s).
  by destruct (isspace c && is_empty (rstrip s)).
Qed.

Lemma lower_strip s : lower (strip s) = strip (lower s).
Proof. unfold strip. by rewrite lower_rstrip, lower_lstrip. Qed.

(** X23: the fallback dictionary is looked up by the word trimmed and
    lower-cased, so letter case and outer whitespace of the word do not
    matter; a hit is a non-empty translation of a supported language. *)
Theorem fallback_lookup (word lang : string) :
  Config.get_fallback_translation (strip (lower word)) lang
  = Config.get_fallback_translation word lang
  ∧ Config.get_fallback_translation (lower word) lang
    = Config.get_fallback_translation word lang
  ∧ ∀ t, Config.get_fallback_translation word lang = Some t →
         t ≠ "" ∧ is_Some (Config.SUPPORTED_LANGUAGES !! lang).
Proof.
  split_and!.
  - unfold Config.get_fallback_translation.
    by rewrite <- lower_strip, strip_idem, lower_strip, lower_idem.
  - unfold Config.get_fallback_translation. by rewrite lower_idem.
  - apply fallback_translation_truthy.
Qed.

Lemma fallback_lookup_witness :
  Config.get_fallback_translation "thank you" "haya" = Some "waakera"
  ∧ Config.get_fallback_translation "  Thank You " "haya" = Some "waakera".
Proof.
  destruct (fallback_lookup "  Thank You " "haya") as (H1 & _ & _).
  split; [reflexivity|]. rewrite <- H1. reflexivity.
Defined.

(** X24: when the loader raises (no file, no readable encoding, or a frame
    the cleaning rejects) the service starts with an empty table: it is
    reported as not loaded, with no entries for any language, and no word is
    ever found in it. *)
Theorem failed_load_means_empty_table
    (path_exists : string → bool) (read_csv : string → string → CSVLoader.ReadResult)
    (sort_values : list Row → list Row) (english_word lang : string) :
  CSVLoader.load_translation_data path_exists read_csv = None →
  let df := translation_df_at_startup path_exists read_csv in
  WordMatcher.search_in_csv sort_values english_word lang df = Value None
  ∧ Main.csv_loaded (Main.health_check df) = false
  ∧ Main.csv_entries (Main.health_check df) = 0
  ∧ Forall (λ info, Main.info_entries_count info = 0) (Main.get_available_languages df).
Proof.
  intros Hload. unfold translation_df_at_startup. rewrite Hload. cbn zeta.
  split_and!; [done|done|done|]. repeat constructor.
Qed.

Lemma failed_load_witness :
  WordMatcher.search_in_csv stable_sort_by_len "book" "swahili"
    (translation_df_at_startup (λ _, false) (λ _ _, CSVLoader.ReadFails)) = Value None.
Proof.
  apply (failed_load_means_empty_table (λ _, false) (λ _ _, CSVLoader.ReadFails)
           stable_sort_by_len "book" "swahili").
  reflexivity.
Defined.




(** X25: the encoding used is the first of [CSV_ENCODINGS] that reads the
    file: once a frame has been read no later encoding is tried, and the
    loader fails for want of an encoding only if every one of them fails. *)
Theorem first_readable_encoding
    (read_csv : string → string → CSVLoader.ReadResult) (csv_file : string) :
  match CSVLoader.read_with read_csv csv_file Config.CSV_ENCODINGS with
  | Some df =>
      ∃ tried encoding later,
        Config.CSV_ENCODINGS = tried ++ encoding :: later
        ∧ read_csv csv_file encoding = CSVLoader.ReadOk df
        ∧ Forall (λ e, read_csv csv_file e = CSVLoader.ReadFails) tried
  | None =>
      Forall (λ e, read_csv csv_file e = CSVLoader.ReadFails) Config.CSV_ENCODINGS
  end.
Proof.
  generalize Config.CSV_ENCODINGS. intros l.
  induction l as [|e l IH]; cbn [CSVLoader.read_with]; [constructor|].
  destruct (read_csv csv_file e) as [df|] eqn:He.
  - exists [], e, l. split_and!; [done|done|constructor].
  - destruct (CSVLoader.read_with read_csv csv_file l) as [df|].
    + destruct IH as (tried & enc & later & -> & Hr & Ht).
      exists (e :: tried), enc, later. split_and!; [done|done|by constructor].
    + by constructor.
Qed.
